(** * datasette/app.py: the query, pagination and registry logic, embedded

    A shallow embedding of the request-independent logic of
    [datasette/app.py]: the database registry ([Datasette.inspect]), name
    resolution, the time-boxed executor and its truncation
    ([BaseView.resolve_db_name], [BaseView.execute]), custom SQL
    ([DatabaseView.custom_sql]) and table browsing ([TableView.data]).

    Python dictionaries are [gmap]s, Python integers are [Z], a Python [str]
    is the [string] of its code points (those below 256), exceptions are
    the [Raise] branch of [result].  The SQL engine, the file system and the
    helpers of [datasette/utils.py] are outside [app.py]; each is either a
    parameter of the definitions below or a small, separately marked model. *)

From Stdlib Require Import ZArith Ascii Lia.
From stdpp Require Import base option list gmap strings pretty sorting.

Local Open Scope Z_scope.

(** ** Exceptions and results *)

Inductive exn :=
  | NotFound (msg : string)
  | KeyError (key : string)
  | ValueError (msg : string)
  | IndexError
  | InvalidSql (msg : string)
  | OperationalError (msg : string)
  | ProgrammingError (msg : string)
  | OSError (path : string)
  | Exception (msg : string).

Inductive result (A : Type) :=
  | Ok (a : A)
  | Raise (e : exn).
Arguments Ok {A} a.
Arguments Raise {A} e.

(** Exceptions propagate: [x ← r; k] runs [k] on the value of [r], or
    re-raises. *)
Global Instance result_bind : MBind result := λ A B k r,
  match r with
  | Ok a => k a
  | Raise e => Raise e
  end.

Definition is_ok {A} (r : result A) : bool :=
  match r with Ok _ => true | Raise _ => false end.

(** ** Python strings *)

Definition hyphen : ascii := "-"%char.
Definition underscore : ascii := "_"%char.
Definition colon : ascii := ":"%char.
Definition dquote : string := String (ascii_of_nat 34) "".

(** [c in s] for a one-character [c]. *)
Fixpoint str_in (c : ascii) (s : string) : bool :=
  match s with
  | "" => false
  | String a s' => if decide (a = c) then true else str_in c s'
  end.

(** The split of [s] at the last [sep], when there is one. *)
Fixpoint rsplit_last (sep : ascii) (s : string) : option (string * string) :=
  match s with
  | "" => None
  | String a s' =>
      match rsplit_last sep s' with
      | Some (l, r) => Some (String a l, r)
      | None => if decide (a = sep) then Some ("", s') else None
      end
  end.

(** [s.rsplit(sep, 1)]: a list of one or two pieces. *)
Definition rsplit1 (sep : ascii) (s : string) : list string :=
  match rsplit_last sep s with
  | Some (l, r) => [l; r]
  | None => [s]
  end.

(** [s[:n]]. *)
Definition str_take (n : nat) (s : string) : string := String.substring 0 n s.

(** [s.startswith(c)] for a one-character [c]. *)
Definition startswith (c : ascii) (s : string) : bool :=
  match s with
  | String a _ => if decide (a = c) then true else false
  | "" => false
  end.

(** ['__' in s]. *)
Fixpoint has_dunder (s : string) : bool :=
  match s with
  | String a (String b _ as s') =>
      if decide (a = underscore ∧ b = underscore) then true else has_dunder s'
  | _ => false
  end.

(** [sep.join(l)]. *)
Fixpoint join (sep : string) (l : list string) : string :=
  match l with
  | [] => ""
  | [s] => s
  | s :: l' => s +:+ sep +:+ join sep l'
  end.

(** [str(n)] for an integer. *)
Definition str_of_int (n : Z) : string := pretty n.

Definition backslash : ascii := ascii_of_nat 92.
Definition squote : ascii := ascii_of_nat 39.

(** [f(c)] for each character [c] of [s], joined. *)
Fixpoint str_bind (f : ascii → string) (s : string) : string :=
  match s with
  | "" => ""
  | String a s' => f a +:+ str_bind f s'
  end.

Definition hex_digit (n : nat) : ascii :=
  ascii_of_nat (if (n <? 10)%nat then 48 + n else 87 + n).

(** One character inside [repr(s)]: the quote and the backslash are
    escaped, tab, newline and carriage return have their letter, and every
    other character that is not printable is written [\xhh]. *)
Definition repr_char (quote c : ascii) : string :=
  let n := nat_of_ascii c in
  if decide (c = quote ∨ c = backslash) then String backslash (String c "")
  else if (n =? 9)%nat then String backslash "t"
  else if (n =? 10)%nat then String backslash "n"
  else if (n =? 13)%nat then String backslash "r"
  else if (n <? 32)%nat || (n =? 127)%nat
          || ((127 <? n)%nat && ((n <? 161)%nat || (n =? 173)%nat))
  then String backslash
         (String "x" (String (hex_digit (n / 16)) (String (hex_digit (n mod 16)) "")))
  else String c "".

(** [repr(s)] of a string: in single quotes, or in double quotes when [s]
    holds a single quote and no double quote. *)
Definition py_repr (s : string) : string :=
  let quote :=
    if str_in squote s && negb (str_in (ascii_of_nat 34) s)
    then ascii_of_nat 34 else squote in
  String quote (str_bind (repr_char quote) s) +:+ String quote "".

(** ** Python lists *)

(** [l[:n]]: a negative bound counts from the end. *)
Definition slice_to {A} (n : Z) (l : list A) : list A :=
  if 0 <=? n then take (Z.to_nat n) l
  else take (length l - Z.to_nat (- n))%nat l.

(** [l[-2]]. *)
Definition index_m2 {A} (l : list A) : result A :=
  match l !! (length l - 2)%nat with
  | Some x => if (2 <=? length l)%nat then Ok x else Raise IndexError
  | None => Raise IndexError
  end.

(** [len(l)]. *)
Definition len {A} (l : list A) : Z := Z.of_nat (length l).

(** ** SQLite values and rows *)

Inductive value :=
  | VNull
  | VInt (z : Z)
  | VText (s : string).

Global Instance value_eq_dec : EqDecision value.
Proof. solve_decision. Defined.

(** A [sqlite3.Row]: the values of one result row with their column names,
    in the order of the statement's result columns. *)
Abbreviation Row := (list (string * value)).

(** What [cursor.execute(sql, params)] does: it raises an exception of
    [sqlite3], or leaves a cursor that holds the statement's whole result
    set, still to be read, with the column names of [cursor.description]. *)
Inductive cursor_result :=
  | CursorError (e : exn)
  | CursorRows (all_rows : list Row) (description : list string).

(** A cursor as the rows it has yet to yield.  [cursor.fetchmany(size)]
    and [cursor.fetchall()] give the rows read and the cursor afterwards.
    [fetchmany] reads until the number of rows read equals [size], so with
    a [size] of 0 or less it reads every row. *)
Definition fetchmany (size : Z) (pending : list Row) : list Row * list Row :=
  if size <=? 0 then (pending, [])
  else (take (Z.to_nat size) pending, drop (Z.to_nat size) pending).

Definition fetchall (pending : list Row) : list Row * list Row := (pending, []).

(** ** The database registry: [Datasette] *)

Record TableInfo := {
  count : Z;
  foreign_keys : list (string * string * string);
}.

(** One entry of [Datasette.inspect()]: the keys ['hash'], ['file'] and
    ['tables']. *)
Record DatabaseInfo := {
  db_hash : string;
  db_file : string;
  db_tables : gmap string TableInfo;
}.

Record Datasette := {
  files : list string;
  page_size : Z;
  max_returned_rows : Z;
  sql_time_limit_ms : Z;
  _inspect : option (gmap string DatabaseInfo);
}.

(** [not self._inspect]: [None] and the empty dictionary are both falsy. *)
Definition inspect_unset (ds : Datasette) : bool :=
  match _inspect ds with
  | None => true
  | Some m => bool_decide (m = ∅)
  end.

Section Registry.
(** [Path(filename).stem] and [str(Path(filename))], and what hashing the
    file and listing its tables yields (the hex digest and the ['tables']
    dictionary), or the error of an unreadable file. *)
Variable stem : string → string.
Variable path_str : string → string.
Variable read_database : string → result (string * gmap string TableInfo).

(** The body of [for filename in self.files], run on the dictionary
    [self._inspect] built so far; the dictionary is returned with the
    outcome because an exception leaves it as it was at that point. *)
Fixpoint inspect_files (fs : list string) (acc : gmap string DatabaseInfo)
    : result unit * gmap string DatabaseInfo :=
  match fs with
  | [] => (Ok (), acc)
  | filename :: fs' =>
      let name := stem filename in
      if decide (is_Some (acc !! name)) then
        (Raise (Exception ("Multiple files with same stem " +:+ name)), acc)
      else
        match read_database filename with
        | Raise e => (Raise e, acc)
        | Ok (digest, tables) =>
            inspect_files fs'
              (<[name := {| db_hash := digest; db_file := path_str filename;
                            db_tables := tables |}]> acc)
        end
  end.

Definition set_inspect (ds : Datasette) (m : gmap string DatabaseInfo) : Datasette :=
  {| files := files ds; page_size := page_size ds;
     max_returned_rows := max_returned_rows ds;
     sql_time_limit_ms := sql_time_limit_ms ds; _inspect := Some m |}.

(** [Datasette.inspect]: the value returned (or the exception raised) and
    the object afterwards. *)
Definition inspect (ds : Datasette)
    : result (gmap string DatabaseInfo) * Datasette :=
  if inspect_unset ds then
    let '(r, m) := inspect_files (files ds) ∅ in
    (_ ← r; Ok m, set_inspect ds m)
  else (Ok (default ∅ (_inspect ds)), ds).
End Registry.

(** ** [BaseView] *)

(** The keyword arguments the router passes with [db_name]; each is present
    or not, depending on the route. *)
Record kwargs := {
  kw_table : option string;
  kw_pk_path : option string;
  kw_as_json : option string;
  kw_as_db : option string;
}.

(** [should_redirect += prefix + kwargs[key]] when [key] is in [kwargs]. *)
Definition add_segment (prefix : string) (o : option string) (path : string) : string :=
  match o with
  | Some v => path +:+ prefix +:+ v
  | None => path
  end.

(** [BaseView.resolve_db_name], on the dictionary [databases] that
    [self.ds.inspect()] returned. *)
Definition resolve_db_name (databases : gmap string DatabaseInfo)
    (db_name : string) (kw : kwargs)
    : result (string * string * option string) :=
  '(name, hash) ←
    (if str_in hyphen db_name then
       match rsplit1 hyphen db_name with
       | [name; hash] =>
           if decide (is_Some (databases !! name)) then Ok (name, Some hash)
           else Ok (db_name, None)
       | _ => Raise (ValueError "not enough values to unpack")
       end
     else Ok (db_name, None));
  match databases !! name with
  | None => Raise (NotFound ("Database not found: " +:+ name))
  | Some info =>
      let expected := str_take 7 (db_hash info) in
      if decide (Some expected ≠ hash) then
        let should_redirect := "/" +:+ name +:+ "-" +:+ expected in
        let should_redirect := add_segment "/" (kw_table kw) should_redirect in
        let should_redirect := add_segment "/" (kw_pk_path kw) should_redirect in
        let should_redirect := add_segment "" (kw_as_json kw) should_redirect in
        let should_redirect := add_segment "" (kw_as_db kw) should_redirect in
        Ok (name, expected, Some should_redirect)
      else Ok (name, expected, None)
  end.

(** What [execute] returns: the rows alone, or with [truncate] the triple
    [(rows, truncated, cursor.description)]. *)
Inductive execute_result :=
  | ExecRows (rows : list Row)
  | ExecTruncated (rows : list Row) (truncated : bool) (description : list string).

Section Executor.
(** The connection: the result set of a statement run with given
    parameters under a given time limit (in ms), as installed by
    [sqlite_timelimit].  [Sql] is the text for custom SQL and the
    structured statement for table browsing. *)
Context {Sql : Type}.
Variable conn : Z → Sql → gmap string string → cursor_result.
Variable ds : Datasette.

(** Lines 139-141: the limit handed to [sqlite_timelimit]. *)
Definition time_limit_ms (custom_time_limit : option Z) : Z :=
  match custom_time_limit with
  | Some c =>
      if negb (c =? 0) && (c <? sql_time_limit_ms ds) then c
      else sql_time_limit_ms ds
  | None => sql_time_limit_ms ds
  end.

(** [sql_operation_in_thread]: what it returns, with the rows it left
    unread on the cursor; an exception of [cursor.execute] is re-raised as
    it is. *)
Definition sql_operation_in_thread (sql : Sql) (params : gmap string string)
    (truncate : bool) (custom_time_limit : option Z)
    : result (execute_result * list Row) :=
  match conn (time_limit_ms custom_time_limit) sql params with
  | CursorError e => Raise e
  | CursorRows all_rows description =>
      let '(rows, truncated, unread) :=
        if negb (max_returned_rows ds =? 0) && truncate
        then
          let '(rows, unread) := fetchmany (max_returned_rows ds + 1) all_rows in
          (slice_to (max_returned_rows ds) rows,
           len rows >? max_returned_rows ds, unread)
        else
          let '(rows, unread) := fetchall all_rows in
          (rows, false, unread) in
      if truncate then Ok (ExecTruncated rows truncated description, unread)
      else Ok (ExecRows rows, unread)
  end.

(** [BaseView.execute]: the value of [sql_operation_in_thread]. *)
Definition execute (sql : Sql) (params : gmap string string)
    (truncate : bool) (custom_time_limit : option Z) : result execute_result :=
  r ← sql_operation_in_thread sql params truncate custom_time_limit; Ok r.1.
End Executor.

(** ** Python's [int(s)] *)

(** White space, as [int()] skips it at both ends of its argument. *)
Definition py_isspace (c : ascii) : bool :=
  let n := nat_of_ascii c in
  ((9 <=? n) && (n <=? 13))%nat || (n =? 32)%nat || (n =? 133)%nat || (n =? 160)%nat.

Fixpoint lstrip (s : string) : string :=
  match s with
  | String a s' => if py_isspace a then lstrip s' else s
  | "" => ""
  end.

Definition strip (s : string) : string :=
  String.rev (lstrip (String.rev (lstrip s))).

(** Decimal digits; a single underscore may stand between two digits. *)
Fixpoint digits_value (acc : Z) (s : string) : option Z :=
  match s with
  | "" => Some acc
  | String a s' =>
      match Ascii.is_nat a with
      | Some d => digits_value (10 * acc + Z.of_nat d) s'
      | None =>
          if decide (a = underscore) then
            match s' with
            | String b _ =>
                match Ascii.is_nat b with
                | Some _ => digits_value acc s'
                | None => None
                end
            | "" => None
            end
          else None
      end
  end.

Definition unsigned_value (s : string) : option Z :=
  match s with
  | String a _ =>
      match Ascii.is_nat a with
      | Some _ => digits_value 0 s
      | None => None
      end
  | "" => None
  end.

(** [int(s)] for a string: surrounding white space, an optional sign and
    decimal digits, which single underscores may group; anything else is
    the [ValueError] with the message of CPython.  (The limit that later
    versions of Python put on the number of digits is a setting of the
    interpreter and is left out.) *)
Definition int_of_str (s : string) : result Z :=
  let v := match strip s with
           | String "-" s' => Z.opp <$> unsigned_value s'
           | String "+" s' => unsigned_value s'
           | s' => unsigned_value s'
           end in
  match v with
  | Some z => Ok z
  | None =>
      Raise (ValueError ("invalid literal for int() with base 10: " +:+ py_repr s))
  end.

(** ** [DatabaseView] *)

Definition in_range (lo hi c : ascii) : bool :=
  (nat_of_ascii lo <=? nat_of_ascii c)%nat && (nat_of_ascii c <=? nat_of_ascii hi)%nat.

(** The character class [[a-zA-Z0-0_]] of [re_named_parameter]. *)
Definition named_parameter_char (c : ascii) : bool :=
  in_range "a" "z" c || in_range "A" "Z" c || in_range "0" "0" c
  || bool_decide (c = underscore).

(** The group of a match in progress, if it is not empty. *)
Definition emit (cur : option string) : list string :=
  match cur with
  | Some (String _ _ as g) => [g]
  | _ => []
  end.

(** After reading [a] outside the character class: a colon opens a match. *)
Definition reopen (a : ascii) : option string :=
  if decide (a = colon) then Some "" else None.

(** [re.compile(':([...]+)').findall(sql)] for a character class given as
    [in_class] (the colon is in none of the classes used): the groups of the
    non-overlapping matches, left to right.  [cur] is the group read so far
    when the scan is inside a match (after its colon). *)
Fixpoint findall_from (in_class : ascii → bool) (cur : option string)
    (sql : string) : list string :=
  match sql with
  | "" => emit cur
  | String a sql' =>
      match cur with
      | Some g =>
          if in_class a
          then findall_from in_class (Some (g +:+ String a "")) sql'
          else emit cur ++ findall_from in_class (reopen a) sql'
      | None => findall_from in_class (reopen a) sql'
      end
  end.

(** [self.re_named_parameter.findall(sql)]. *)
Definition re_named_parameter_findall (sql : string) : list string :=
  findall_from named_parameter_char None sql.

(** [{p: params.get(p) or '' for p in named_parameters}]. *)
Definition named_parameter_values_of (params : gmap string string)
    (named_parameters : list string) : gmap string string :=
  foldl (λ m p, <[p := default "" (params !! p)]> m) ∅ named_parameters.

(** The loop that sets missing parameters to the blank string. *)
Definition bind_missing (params : gmap string string)
    (named_parameters : list string) : gmap string string :=
  foldl (λ m p, if decide (is_Some (m !! p)) then m else <[p := ""]> m)
        params named_parameters.

(** [extra_args]: the [custom_time_limit] keyword, when the request has a
    non-empty [_sql_time_limit_ms]. *)
Definition custom_time_limit_of (raw_args : gmap string string) : result (option Z) :=
  match raw_args !! "_sql_time_limit_ms" with
  | Some (String _ _ as v) => z ← int_of_str v; Ok (Some z)
  | _ => Ok None
  end.

(** The two dictionaries [custom_sql] returns (the keys used here). *)
Record custom_sql_data := {
  cs_database : string;
  cs_rows : list Row;
  cs_truncated : bool;
  cs_columns : list string;
  cs_query_sql : string;
  cs_query_params : gmap string string;
  cs_named_parameter_values : gmap string string;
}.

Section DatabaseView.
(** [validate_sql_select] of [datasette/utils.py] (raises [InvalidSql]),
    and the connection running SQL text. *)
Variable validate_sql_select : string → result unit.
Variable conn : Z → string → gmap string string → cursor_result.
Variable ds : Datasette.

(** [DatabaseView.custom_sql] on [request.raw_args]. *)
Definition custom_sql (raw_args : gmap string string) (name : string)
    : result custom_sql_data :=
  match raw_args !! "sql" with
  | None => Raise (KeyError "sql")
  | Some sql =>
      let params := delete "sql" raw_args in
      _ ← validate_sql_select sql;
      let named_parameters := re_named_parameter_findall sql in
      let named_parameter_values :=
        named_parameter_values_of params named_parameters in
      let params := bind_missing params named_parameters in
      custom_time_limit ← custom_time_limit_of params;
      r ← execute conn ds sql params true custom_time_limit;
      match r with
      | ExecTruncated rows truncated description =>
          Ok {| cs_database := name; cs_rows := rows;
                cs_truncated := truncated; cs_columns := description;
                cs_query_sql := sql; cs_query_params := params;
                cs_named_parameter_values := named_parameter_values |}
      | ExecRows _ => Raise (ValueError "not enough values to unpack")
      end
  end.
End DatabaseView.

(** ** The SQL engine on the statements of table browsing

    [TableView.data] assembles one statement shape,
    [select .. from .. where .. order by .. limit .. offset ..].  The
    engine's part is modelled on that shape: a relation is its
    [PRAGMA table_info] and its rows in storage order, and a statement is
    kept in structured form next to its rendered text. *)

(** A stored row: its rowid and its named column values. *)
Abbreviation stored_row := (Z * Row)%type.

Record relation := {
  rel_is_view : bool;
  (** column name and the [pk] field of [PRAGMA table_info] (0: not a key
      column, otherwise its 1-based position in the primary key) *)
  rel_table_info : list (string * Z);
  rel_rows : list (Z * list value);
}.

Definition rel_columns (r : relation) : list string := (rel_table_info r).*1.

Definition rel_stored (r : relation) : list stored_row :=
  (λ row, (row.1, zip (rel_columns r) row.2)) <$> rel_rows r.

(** A clause returned by [build_where_clauses]: its SQL text, and whether a
    stored row satisfies it under given parameters. *)
Record built_clause := {
  bc_sql : string;
  bc_holds : gmap string string → stored_row → bool;
}.

Inductive where_clause :=
  | Built (c : built_clause)
  (** ['rowid > :{param}'] *)
  | RowidGt (param : string)
  (** ['"{pk}" > :{param}'] *)
  | PkGt (pk param : string).

Record select_query := {
  q_with_rowid : bool;          (* select 'rowid, *' rather than '*' *)
  q_table : string;
  q_where : list where_clause;
  q_order_by : list string;
  q_limit : Z;
  q_offset : option Z;
}.

(** Stable insertion sort: Python's [list.sort] and SQL's [order by] on a
    total preorder given as a Boolean [le]. *)
Fixpoint insert_sorted {A} (le : A → A → bool) (x : A) (l : list A) : list A :=
  match l with
  | [] => [x]
  | y :: l' => if le x y then x :: l else y :: insert_sorted le x l'
  end.

Definition sort_by {A} (le : A → A → bool) (l : list A) : list A :=
  foldr (insert_sorted le) [] l.

(** *** Comparison with a bound parameter

    Every parameter is bound as text.  Compared with the value of a column
    of INTEGER affinity (the rowid, an integer key), text that is a
    well-formed integer or real literal is converted to that number, and
    any other text is greater than every number; compared with text, it is
    compared bytewise.  The columns of a relation are taken to have the
    affinity of the values they hold.  A literal is compared exactly here;
    SQLite rounds it to a double first, which shows for literals of more
    than 15 significant digits. *)

Definition sqlite_isspace (c : ascii) : bool :=
  let n := nat_of_ascii c in ((9 <=? n) && (n <=? 13))%nat || (n =? 32)%nat.

Fixpoint sqlite_lstrip (s : string) : string :=
  match s with
  | String a s' => if sqlite_isspace a then sqlite_lstrip s' else s
  | "" => ""
  end.

(** The digits at the head of [s]: their value on top of [acc], how many
    there are, and the rest of [s]. *)
Fixpoint read_digits (acc : Z) (s : string) : Z * nat * string :=
  match s with
  | String a s' =>
      match Ascii.is_nat a with
      | Some d =>
          let '(v, n, rest) := read_digits (10 * acc + Z.of_nat d) s' in
          (v, S n, rest)
      | None => (acc, 0%nat, s)
      end
  | "" => (acc, 0%nat, "")
  end.

(** An optional sign: whether it is a minus, and the rest. *)
Definition read_sign (s : string) : bool * string :=
  match s with
  | String "-" s' => (true, s')
  | String "+" s' => (false, s')
  | _ => (false, s)
  end.

(** The number [m * 10^e] that the text [s] is converted to, as [(m, e)]:
    white space, a sign, digits with an optional decimal point (at least
    one digit), an optional exponent with at least one digit, white
    space. *)
Definition numeric_param (s : string) : option (Z * Z) :=
  let '(negative, s) := read_sign (sqlite_lstrip s) in
  let '(m, n1, s) := read_digits 0 s in
  let '(m, n2, s) :=
    match s with
    | String "." s' => read_digits m s'
    | _ => (m, 0%nat, s)
    end in
  if (n1 + n2 =? 0)%nat then None
  else
    let exponent :=
      match s with
      | String c s' =>
          if bool_decide (c = "e"%char ∨ c = "E"%char) then
            let '(negative_exp, s') := read_sign s' in
            let '(x, nx, rest) := read_digits 0 s' in
            if (nx =? 0)%nat then None
            else Some (if negative_exp then - x else x, rest)
          else Some (0, s)
      | "" => Some (0, "")
      end in
    match exponent with
    | Some (x, rest) =>
        match sqlite_lstrip rest with
        | "" => Some (if negative then - m else m, x - Z.of_nat n2)
        | _ => None
        end
    | None => None
    end.

(** [m * 10^e < a]. *)
Definition decimal_lt (d : Z * Z) (a : Z) : bool :=
  if 0 <=? d.2 then d.1 * 10 ^ d.2 <? a else d.1 <? a * 10 ^ (- d.2).

(** [x > :param] on a stored value.  NULL compares to nothing. *)
Definition value_gt (x : value) (param : string) : bool :=
  match x with
  | VNull => false
  | VInt a =>
      match numeric_param param with
      | Some d => decimal_lt d a
      | None => false
      end
  | VText a => String.ltb param a
  end.

(** The order of [order by]: NULL, then integers, then text. *)
Definition value_leb (x y : value) : bool :=
  match x, y with
  | VNull, _ => true
  | VInt _, VNull => false
  | VInt a, VInt b => a <=? b
  | VInt _, VText _ => true
  | VText a, VText b => String.leb a b
  | VText _, _ => false
  end.

Fixpoint key_leb (k1 k2 : list value) : bool :=
  match k1, k2 with
  | x :: k1', y :: k2' =>
      if decide (x = y) then key_leb k1' k2' else value_leb x y
  | _, _ => true
  end.

(** The value of a named column of a stored row; [rowid] is the rowid. *)
Definition column_value (r : stored_row) (col : string) : value :=
  match list_find (λ cv, cv.1 = col) r.2 with
  | Some (_, (_, v)) => v
  | None => if decide (col = "rowid") then VInt r.1 else VNull
  end.

Definition sort_key (cols : list string) (r : stored_row) : list value :=
  column_value r <$> cols.

Definition clause_param (c : where_clause) : list string :=
  match c with
  | Built _ => []
  | RowidGt p => [p]
  | PkGt _ p => [p]
  end.

Definition clause_holds (params : gmap string string) (r : stored_row)
    (c : where_clause) : bool :=
  match c with
  | Built b => bc_holds b params r
  | RowidGt p => value_gt (VInt r.1) (default "" (params !! p))
  | PkGt pk p => value_gt (column_value r pk) (default "" (params !! p))
  end.

(** [limit n]: a negative limit is no limit. *)
Definition sql_limit {A} (n : Z) (l : list A) : list A :=
  if n <? 0 then l else take (Z.to_nat n) l.

(** [offset n]: a negative offset is no offset. *)
Definition sql_offset {A} (n : option Z) (l : list A) : list A :=
  match n with
  | Some n => drop (Z.to_nat n) l
  | None => l
  end.

(** The rows a statement selects, in order, before they are fetched. *)
Definition select_rows (rel : relation) (q : select_query)
    (params : gmap string string) : list Row :=
  let kept := filter (λ r, forallb (clause_holds params r) (q_where q))
                (rel_stored rel) in
  let ordered :=
    match q_order_by q with
    | [] => kept
    | cols => sort_by (λ r1 r2, key_leb (sort_key cols r1) (sort_key cols r2)) kept
    end in
  let shaped :=
    (λ r : stored_row, if q_with_rowid q then ("rowid", VInt r.1) :: r.2 else r.2)
      <$> ordered in
  sql_limit (q_limit q) (sql_offset (q_offset q) shaped).

(** [sqlite3.ProgrammingError] for the first placeholder without a
    binding. *)
Definition unbound_parameter (params : gmap string string)
    (placeholders : list string) : exn :=
  ProgrammingError
    ("You did not supply a value for binding parameter :"
     +:+ from_option snd "" (list_find (λ p, params !! p = None) placeholders)
     +:+ ".").

(** The connection of a database: the time limit never fires on it. *)
Definition table_conn (db : gmap string relation)
    (limit_ms : Z) (q : select_query) (params : gmap string string) : cursor_result :=
  match db !! q_table q with
  | None => CursorError (OperationalError ("no such table: " +:+ q_table q))
  | Some rel =>
      if decide (Forall (λ p, is_Some (params !! p)) (q_where q ≫= clause_param)) then
        CursorRows (select_rows rel q params)
          (if q_with_rowid q then "rowid" :: rel_columns rel else rel_columns rel)
      else CursorError (unbound_parameter params (q_where q ≫= clause_param))
  end.

(** ** [TableView] *)

(** The helpers of [datasette/utils.py] and [urllib] that [TableView.data]
    calls; their code is not part of [app.py]. *)
Class Utils := {
  build_where_clauses : gmap string string → list built_clause * gmap string string;
  compound_pks_from_path : string → list string;
  path_from_row_pks : Row → list string → bool → string;
  escape_sqlite_table_name : string → string;
  unquote_plus : string → string;
}.

(** [BaseView.pks_for_table]: the key columns of [PRAGMA table_info], by
    their position in the key. *)
Definition pks_for_table (rel : relation) : list string :=
  (sort_by (λ r1 r2 : string * Z, r1.2 <=? r2.2)
     (filter (λ r, r.2 ≠ 0) (rel_table_info rel))).*1.

(** Special args start with [_] and do not contain a [__]. *)
Definition is_special_arg (key : string) : bool :=
  startswith underscore key && negb (has_dunder key).

(** The loop over [request.args.items()]: each key goes, with the first of
    its values, to [special_args] or to [other_args].  A key of
    [request.args] always has at least one value. *)
Definition partition_args (args : gmap string (string * list string))
    : gmap string string * gmap string string :=
  map_fold (λ key value '(special_args, other_args),
              if is_special_arg key
              then (<[key := value.1]> special_args, other_args)
              else (special_args, <[key := value.1]> other_args))
           (∅, ∅) args.

(** A value that is neither [None] nor the empty string. *)
Definition truthy (o : option string) : option string :=
  match o with
  | Some (String _ _ as s) => Some s
  | _ => None
  end.

(** ['p{}'.format(n)]. *)
Definition param_name (n : Z) : string := "p" +:+ str_of_int n.

(** The loop over [zip(pks, pk_values)]. *)
Fixpoint add_pk_clauses (pairs : list (string * string)) (param_counter : Z)
    (where_clauses : list where_clause) (params : gmap string string)
    : list where_clause * gmap string string :=
  match pairs with
  | [] => (where_clauses, params)
  | (pk, v) :: pairs' =>
      add_pk_clauses pairs' (param_counter + 1)
        (where_clauses ++ [PkGt pk (param_name param_counter)])
        (<[param_name param_counter := v]> params)
  end.

Definition render_clause (c : where_clause) : string :=
  match c with
  | Built b => bc_sql b
  | RowidGt p => "rowid > :" +:+ p
  | PkGt pk p => dquote +:+ pk +:+ dquote +:+ " > :" +:+ p
  end.

(** [next_value]: an offset (views) or an encoded key (tables). *)
Inductive next_cursor :=
  | NextOffset (n : Z)
  | NextPath (path : string).

(** [next_value and str(next_value) or None]. *)
Definition next_str (next_value : option next_cursor) : option string :=
  match next_value with
  | Some (NextOffset n) => if n =? 0 then None else Some (str_of_int n)
  | Some (NextPath (String _ _ as s)) => Some s
  | _ => None
  end.

(** The first dictionary [TableView.data] returns ([view_definition],
    [table_definition] and [next_url] are left out), with [next_value] and
    the statement in structured form. *)
Record table_data := {
  td_database : string;
  td_table : string;
  td_is_view : bool;
  td_rows : list Row;
  td_truncated : bool;
  td_table_rows : option Z;
  td_columns : list string;
  td_primary_keys : list string;
  td_query : select_query;
  td_query_sql : string;
  td_query_params : gmap string string;
  td_next_value : option next_cursor;
  td_next : option string;
}.

Section TableView.
Context `{!Utils}.
(** The configuration, the value of [self.ds.inspect()], and the relations
    of the database being browsed. *)
Variable ds : Datasette.
Variable databases : gmap string DatabaseInfo.
Variable db : gmap string relation.

(** The text of the statement, as the format string of line 456 builds it. *)
Definition render_sql (q : select_query) : string :=
  let where_clause :=
    match q_where q with
    | [] => ""
    | cs => "where " +:+ join " and " (render_clause <$> cs) +:+ " "
    end in
  let order_by :=
    match q_order_by q with
    | [] => ""
    | cols => "order by " +:+ join ", " cols +:+ " "
    end in
  let offset :=
    match q_offset q with
    | Some n => " offset " +:+ str_of_int n
    | None => ""
    end in
  "select " +:+ (if q_with_rowid q then "rowid, *" else "*")
  +:+ " from " +:+ escape_sqlite_table_name (q_table q) +:+ " "
  +:+ where_clause +:+ order_by
  +:+ "limit " +:+ str_of_int (q_limit q) +:+ offset.

(** [info[name]['tables'][table]['count']]. *)
Definition table_rows_of (name table : string) : result Z :=
  match databases !! name with
  | None => Raise (KeyError name)
  | Some info =>
      match db_tables info !! table with
      | None => Raise (KeyError table)
      | Some t => Ok (count t)
      end
  end.

(** Lines 423-447: what a cursor [next] adds to the statement, as the
    where clauses, the parameters and the offset. *)
Definition apply_next (is_view use_rowid : bool) (pks : list string)
    (next : option string)
    (where_clauses : list where_clause) (params : gmap string string)
    : result (list where_clause * gmap string string * option Z) :=
  match next with
  | None => Ok (where_clauses, params, None)
  | Some next =>
      if is_view then
        n ← int_of_str next; Ok (where_clauses, params, Some n)
      else if use_rowid then
        let p := param_name (Z.of_nat (size params)) in
        Ok (where_clauses ++ [RowidGt p], <[p := next]> params, None)
      else
        let pk_values := compound_pks_from_path next in
        if decide (length pk_values = length pks) then
          let '(w, p) := add_pk_clauses (zip pks pk_values)
                           (Z.of_nat (size params)) where_clauses params in
          Ok (w, p, None)
        else Ok (where_clauses, params, None)
  end.

(** Lines 484-490: [next_value]. *)
Definition next_value_of (is_view use_rowid : bool) (pks : list string)
    (next : option string) (rows : list Row) : result (option next_cursor) :=
  if len rows >? page_size ds then
    if is_view then
      n ← match next with Some s => int_of_str s | None => Ok 0 end;
      Ok (Some (NextOffset (n + page_size ds)))
    else
      row ← index_m2 rows;
      Ok (Some (NextPath (path_from_row_pks row pks use_rowid)))
  else Ok None.

(** [TableView.data] on [request.args]. *)
Definition data (args : gmap string (string * list string))
    (name table : string) : result table_data :=
  let table := unquote_plus table in
  match db !! table with
  | None => Raise IndexError       (* no definition row in sqlite_master *)
  | Some rel =>
      let pks := pks_for_table rel in
      let is_view := rel_is_view rel in
      let use_rowid := bool_decide (pks = []) && negb is_view in
      let order_cols := if use_rowid then ["rowid"] else pks in
      let order_cols := if is_view then [] else order_cols in
      let '(special_args, other_args) := partition_args args in
      let '(built, params) :=
        if decide (other_args = ∅) then ([], ∅)
        else build_where_clauses other_args in
      let next := truthy (special_args !! "_next") in
      '(where_clauses, params, offset) ←
        apply_next is_view use_rowid pks next (Built <$> built) params;
      let q := {| q_with_rowid := use_rowid; q_table := table;
                  q_where := where_clauses;
                  q_order_by := match join ", " order_cols with
                                | "" => []
                                | _ => order_cols
                                end;
                  q_limit := page_size ds + 1; q_offset := offset |} in
      let sql := render_sql q in
      custom_time_limit ← custom_time_limit_of (fst <$> args);
      r ← execute (table_conn db) ds q params true custom_time_limit;
      match r with
      | ExecRows _ => Raise (ValueError "not enough values to unpack")
      | ExecTruncated rows truncated columns =>
          table_rows ←
            (if is_view then Ok None
             else n ← table_rows_of name table; Ok (Some n));
          next_value ← next_value_of is_view use_rowid pks next rows;
          Ok {| td_database := name; td_table := table; td_is_view := is_view;
                td_rows := slice_to (page_size ds) rows;
                td_truncated := truncated; td_table_rows := table_rows;
                td_columns := columns; td_primary_keys := pks;
                td_query := q; td_query_sql := sql; td_query_params := params;
                td_next_value := next_value; td_next := next_str next_value |}
      end
  end.
End TableView.

(** ** Responses: [BaseView.redirect], [BaseView.get], [BaseView.view_get] *)

(** An HTTP response, as far as this code sets it: the status and the
    headers it assigns. *)
Record response := {
  resp_status : Z;
  resp_headers : gmap string string;
}.

(** [sanic.response.redirect(to)]: status 302 and the [Location] header. *)
Definition sanic_redirect (to : string) : response :=
  {| resp_status := 302; resp_headers := {[ "Location" := to ]} |}.

(** [r.headers[key] = v]. *)
Definition set_header (key v : string) (r : response) : response :=
  {| resp_status := resp_status r; resp_headers := <[key := v]> (resp_headers r) |}.

(** [BaseView.redirect], for a request with the given [query_string] and
    the setting [self.ds.cors]. *)
Definition redirect (cors : bool) (query_string path : string) : response :=
  let path := match query_string with
              | "" => path
              | _ => path +:+ "?" +:+ query_string
              end in
  let r := sanic_redirect path in
  let r := set_header "Link" ("<" +:+ path +:+ ">; rel=preload") r in
  if cors then set_header "Access-Control-Allow-Origin" "*" r else r.

Section Get.
(** The response type of the view, and its [view_get] method. *)
Context {R : Type}.
Variable view_get : string → string → kwargs → result R.

(** [BaseView.get]: a redirect response, or what [view_get] returns. *)
Definition get (cors : bool) (query_string : string)
    (databases : gmap string DatabaseInfo) (db_name : string) (kw : kwargs)
    : result (response + R) :=
  '(name, hash, should_redirect) ← resolve_db_name databases db_name kw;
  match truthy should_redirect with
  | Some target => Ok (inl (redirect cors query_string target))
  | None => r ← view_get name hash kw; Ok (inr r)
  end.
End Get.

(** What [view_get] renders: the error dictionary of the [except] branch,
    or the dictionary the view's [data] returned. *)
Inductive view_payload (D : Type) :=
  | PayloadError (error database database_hash : string)
  | PayloadData (data : D).
Arguments PayloadError {D} error database database_hash.
Arguments PayloadData {D} data.

(** The outcome of [view_get] before JSON encoding or template rendering:
    the status, whether the response is JSON, the template (used when it is
    not), the payload, the metadata keys added to it, the row objects that
    replace ['rows'] for [.jsono], and the headers set. *)
Record view_response (D : Type) := {
  vr_status : Z;
  vr_json : bool;
  vr_template : string;
  vr_payload : view_payload D;
  vr_metadata : gmap string string;
  vr_row_objects : option (list (gmap string value));
  vr_headers : gmap string string;
}.
Arguments vr_status {D} _.
Arguments vr_json {D} _.
Arguments vr_template {D} _.
Arguments vr_payload {D} _.
Arguments vr_metadata {D} _.
Arguments vr_row_objects {D} _.
Arguments vr_headers {D} _.

(** [dict(zip(columns, row))]: a later column of the same name overwrites
    an earlier one. *)
Definition row_object (columns : list string) (row : Row) : gmap string value :=
  foldl (λ m cv, <[cv.1 := cv.2]> m) ∅ (zip columns row.*2).

(** The metadata keys [view_get] copies into the payload: those of the four
    with a non-empty value. *)
Definition metadata_keys (metadata : gmap string string) : gmap string string :=
  foldl (λ m key, match truthy (metadata !! key) with
                  | Some v => <[key := v]> m
                  | None => m
                  end)
        ∅ ["source"; "source_url"; "license"; "license_url"].

Section ViewGet.
(** The dictionary type of the view with its ['columns'] and ['rows']
    entries, the view's [template] and [data] method, and the settings
    [cors], [cache_headers] and [metadata] of [self.ds]. *)
Context {D : Type}.
Variable columns_of : D → option (list string).
Variable rows_of : D → option (list Row).
Variable template : string.
Variable data_of : string → string → kwargs → result D.
Variables cors cache_headers : bool.
Variable metadata : gmap string string.

(** [BaseView.view_get]; the time measurement ([query_ms]) is left out. *)
Definition view_get (name hash : string) (kw : kwargs)
    : result (view_response D) :=
  let as_json := truthy (kw_as_json kw) in
  let kw := {| kw_table := kw_table kw; kw_pk_path := kw_pk_path kw;
               kw_as_json := None; kw_as_db := kw_as_db kw |} in
  '(payload, template, status_code) ←
    match data_of name hash kw with
    | Ok data => Ok (PayloadData data, template, 200)
    | Raise (OperationalError msg) | Raise (InvalidSql msg) =>
        Ok (PayloadError msg name hash, "error.html", 400)
    | Raise e => Raise e
    end;
  let row_objects :=
    if decide (as_json = Some ".jsono") then
      match payload with
      | PayloadData data =>
          match columns_of data, rows_of data with
          | Some (_ :: _ as columns), Some (_ :: _ as rows) =>
              Some (row_object columns <$> rows)
          | _, _ => None
          end
      | PayloadError _ _ _ => None
      end
    else None in
  let headers : gmap string string :=
    match as_json with
    | Some _ => if cors then {[ "Access-Control-Allow-Origin" := "*" ]} else ∅
    | None => ∅
    end in
  let headers :=
    if cache_headers
    then <["Cache-Control" := "max-age=" +:+ str_of_int (365 * 24 * 60 * 60)]> headers
    else headers in
  Ok {| vr_status := status_code;
        vr_json := match as_json with Some _ => true | None => false end;
        vr_template := template; vr_payload := payload;
        vr_metadata := metadata_keys metadata;
        vr_row_objects := row_objects; vr_headers := headers |}.
End ViewGet.

(** ** [IndexView] *)

(** One entry of the [databases] list of the index page. *)
Record database_summary := {
  sum_name : string;
  sum_hash : string;
  sum_path : string;
  sum_tables_truncated : list (string * TableInfo);
  sum_tables_count : Z;
  sum_tables_more : bool;
  sum_table_rows : Z;
}.

(** [sum(l)]. *)
Definition sum_list (l : list Z) : Z := foldr Z.add 0 l.

Section IndexView.
(** [d.items()] on a ['tables'] dictionary: its entries in the order of
    the dictionary, the order in which [inspect] inserted them. *)
Variable items : gmap string TableInfo → list (string * TableInfo).

(** The dictionary built for one [(key, info)] of [inspect()]; the sort
    is stable, so tables of equal count keep the order of [items]. *)
Definition summarize (key : string) (info : DatabaseInfo) : database_summary :=
  let items := items (db_tables info) in
  {| sum_name := key;
     sum_hash := db_hash info;
     sum_path := key +:+ "-" +:+ str_take 7 (db_hash info);
     sum_tables_truncated :=
       slice_to 5 (sort_by (λ p1 p2 : string * TableInfo, count p2.2 <=? count p1.2)
                     items);
     sum_tables_count := len items;
     sum_tables_more := len items >? 5;
     sum_table_rows := sum_list ((λ p, count p.2) <$> items) |}.

(** The [databases] list of [IndexView.get], on the value of
    [self.ds.inspect()]: one entry per database, sorted by name. *)
Definition index_databases (databases : gmap string DatabaseInfo)
    : list database_summary :=
  (λ p, summarize p.1 p.2)
    <$> sort_by (λ p1 p2 : string * DatabaseInfo, String.leb p1.1 p2.1)
          (map_to_list databases).
End IndexView.

(** ** A model of the absent helpers, for integer keys and plain names *)

(** [s.split(sep)]. *)
Fixpoint split_on (sep : ascii) (s : string) : list string :=
  match s with
  | "" => [""]
  | String a s' =>
      if decide (a = sep) then "" :: split_on sep s'
      else match split_on sep s' with
           | piece :: pieces => String a piece :: pieces
           | [] => [String a ""]
           end
  end.

(** [row[col]]. *)
Definition row_get (row : Row) (col : string) : value :=
  match list_find (λ cv, cv.1 = col) row with
  | Some (_, (_, v)) => v
  | None => VNull
  end.

(** [str(v)] of a column value. *)
Definition str_of_value (v : value) : string :=
  match v with
  | VNull => "None"
  | VInt z => str_of_int z
  | VText s => s
  end.

(** Modelled from the spec: the helpers of [datasette/utils.py] are not in
    [app.py].  A cursor "encodes the primary-key tuple of the last row of
    the current page, percent/comma-escaped for compound keys" (the rowid
    for a table without a key), and is read back "percent-decoded,
    comma-joined in declared key order".  Percent-escaping is the identity
    on the decimal integers and plain names used in the examples, so it is
    left out; no filter arguments are passed there, so the filter builder
    returns no clause. *)
Definition spec_utils : Utils := {|
  build_where_clauses := λ _, ([], ∅);
  compound_pks_from_path := split_on ",";
  path_from_row_pks := λ row pks use_rowid,
    if use_rowid then str_of_value (row_get row "rowid")
    else join "," ((λ pk, str_of_value (row_get row pk)) <$> pks);
  escape_sqlite_table_name := λ t, t;
  unquote_plus := λ t, t;
|}.

(** A POSIX [Path(filename).stem]: the last component of the path (empty
    components and ['.'] components do not count) without its last
    suffix. *)
Definition path_parts (path : string) : list string :=
  filter (λ c, c ≠ "" ∧ c ≠ ".") (split_on "/" path).

Definition basename (path : string) : string := default "" (last (path_parts path)).

Definition posix_stem (path : string) : string :=
  let name := basename path in
  match rsplit_last "." name with
  | Some (String _ _ as s, String _ _) => s
  | _ => name
  end.

(** A POSIX [str(Path(filename))]: empty components and ['.'] components
    are dropped, a leading slash is kept (two leading slashes are kept as
    two), and the empty path is ['.']. *)
Definition posix_path_str (path : string) : string :=
  let parts := path_parts path in
  let root :=
    match path with
    | String "/" (String "/" (String "/" _)) => "/"
    | String "/" (String "/" _) => "//"
    | String "/" _ => "/"
    | _ => ""
    end in
  match root +:+ join "/" parts with
  | "" => "."
  | p => p
  end.

(** ** [RowView] *)

(** The statement of a row lookup,
    [select .. from "table" where "pk0"=:p0 AND ..]: per clause the column
    and the name of its parameter. *)
Record row_query := {
  rq_with_rowid : bool;
  rq_table : string;
  rq_wheres : list (string * string);
}.

(** [enumerate(l)], from index [i]. *)
Fixpoint enumerate_from {A} (i : Z) (l : list A) : list (Z * A) :=
  match l with
  | [] => []
  | x :: l' => (i, x) :: enumerate_from (i + 1) l'
  end.

(** [str(l)] of a list of strings. *)
Definition repr_list (l : list string) : string :=
  "[" +:+ join ", " (py_repr <$> l) +:+ "]".

(** The first dictionary [RowView.data] returns. *)
Record row_data := {
  rd_database : string;
  rd_table : string;
  rd_rows : list Row;
  rd_columns : list string;
  rd_primary_keys : list string;
  rd_primary_key_values : list string;
}.

Module RowView.
Section RowView.
Context `{!Utils}.
(** The connection running a row lookup, the configuration, and the
    relations of the database (for [PRAGMA table_info]). *)
Variable conn : Z → row_query → gmap string string → cursor_result.
Variable ds : Datasette.
Variable db : gmap string relation.

(** The key columns of the lookup: [pks_for_table], or [['rowid']] when
    that is empty (also for a table that does not exist, whose
    [PRAGMA table_info] is empty). *)
Definition lookup_keys (table : string) : bool * list string :=
  let pks := match db !! table with
             | Some rel => pks_for_table rel
             | None => []
             end in
  let use_rowid := bool_decide (pks = []) in
  (use_rowid, if use_rowid then ["rowid"] else pks).

(** [wheres]: one clause per key column, with parameter [p{i}]. *)
Definition wheres_of (pks : list string) : list (string * string) :=
  (λ ipk, (ipk.2, param_name ipk.1)) <$> enumerate_from 0 pks.

(** [params]: [p{i}] for each value of the path. *)
Definition params_of (pk_values : list string) : gmap string string :=
  foldl (λ m iv, <[param_name iv.1 := iv.2]> m) ∅ (enumerate_from 0 pk_values).

(** The text of the statement (line 572). *)
Definition render_sql (q : row_query) : string :=
  "select " +:+ (if rq_with_rowid q then "rowid, *" else "*")
  +:+ " from " +:+ dquote +:+ rq_table q +:+ dquote +:+ " where "
  +:+ join " AND " ((λ w, dquote +:+ w.1 +:+ dquote +:+ "=:" +:+ w.2) <$> rq_wheres q).

(** [RowView.data]. *)
Definition data (name table pk_path : string) : result row_data :=
  let table := unquote_plus table in
  let pk_values := compound_pks_from_path pk_path in
  let '(use_rowid, pks) := lookup_keys table in
  let q := {| rq_with_rowid := use_rowid; rq_table := table;
              rq_wheres := wheres_of pks |} in
  let params := params_of pk_values in
  r ← execute conn ds q params true None;
  match r with
  | ExecRows _ => Raise (ValueError "not enough values to unpack")
  | ExecTruncated rows truncated description =>
      match rows with
      | [] => Raise (NotFound ("Record not found: " +:+ repr_list pk_values))
      | _ => Ok {| rd_database := name; rd_table := table; rd_rows := rows;
                   rd_columns := description; rd_primary_keys := pks;
                   rd_primary_key_values := pk_values |}
      end
  end.
End RowView.
End RowView.

(** ** [make_display_rows] and the template data of [TableView.data] *)

(** The value of a cell: [jinja2.Markup] or a plain string. *)
Inductive display_value :=
  | Markup (html : string)
  | Text (s : string).

Record cell := {
  cell_column : string;
  cell_value : display_value;
}.

Section DisplayRows.
Context `{!Utils}.
(** [urllib.parse.quote_plus]. *)
Variable quote_plus : string → string.

(** The link to the row: the first cell of a table row. *)
Definition row_link (database database_hash table : string) (row : Row)
    (pks : list string) (use_rowid : bool) : display_value :=
  let flat_pks := path_from_row_pks row pks use_rowid in
  Markup ("<a href=" +:+ dquote +:+ "/" +:+ database +:+ "-" +:+ database_hash
          +:+ "/" +:+ quote_plus table +:+ "/" +:+ flat_pks +:+ dquote +:+ ">"
          +:+ flat_pks +:+ "</a>").

(** The cell of one [(value, column)] pair, if it gets one. *)
Definition value_cell (use_rowid : bool) (vc : value * string) : list cell :=
  if use_rowid && bool_decide (vc.2 = "rowid") then []
  else [ {| cell_column := vc.2;
            cell_value := match vc.1 with
                          | VNull => Markup "&nbsp;"
                          | v => Text (str_of_value v)
                          end |} ].

(** [make_display_rows]: the list of [cells] it yields, one per row. *)
Definition make_display_rows (database database_hash table : string)
    (rows : list Row) (display_columns pks : list string)
    (is_view use_rowid : bool) : list (list cell) :=
  (λ row : Row,
     (if is_view then []
      else [ {| cell_column := if use_rowid then "rowid" else "Link";
                cell_value := row_link database database_hash table row pks use_rowid |} ])
     ++ (zip row.*2 display_columns ≫= value_cell use_rowid))
    <$> rows.

(** The second value [TableView.data] returns: what the [lambda] yields. *)
Record table_template_data := {
  tt_database_hash : string;
  tt_use_rowid : bool;
  tt_display_columns : list string;
  tt_display_rows : list (list cell);
}.

Variable ds : Datasette.
Variable databases : gmap string DatabaseInfo.
Variable db : gmap string relation.

(** [TableView.data] with both values it returns. *)
Definition data_and_template (args : gmap string (string * list string))
    (name hash table : string) : result (table_data * table_template_data) :=
  let table := unquote_plus table in
  match db !! table with
  | None => Raise IndexError
  | Some rel =>
      let pks := pks_for_table rel in
      let is_view := rel_is_view rel in
      let use_rowid := bool_decide (pks = []) && negb is_view in
      let order_cols := if use_rowid then ["rowid"] else pks in
      let order_cols := if is_view then [] else order_cols in
      let '(special_args, other_args) := partition_args args in
      let '(built, params) :=
        if decide (other_args = ∅) then ([], ∅)
        else build_where_clauses other_args in
      let next := truthy (special_args !! "_next") in
      '(where_clauses, params, offset) ←
        apply_next is_view use_rowid pks next (Built <$> built) params;
      let q := {| q_with_rowid := use_rowid; q_table := table;
                  q_where := where_clauses;
                  q_order_by := match join ", " order_cols with
                                | "" => []
                                | _ => order_cols
                                end;
                  q_limit := page_size ds + 1; q_offset := offset |} in
      let sql := render_sql q in
      custom_time_limit ← custom_time_limit_of (fst <$> args);
      r ← execute (table_conn db) ds q params true custom_time_limit;
      match r with
      | ExecRows _ => Raise (ValueError "not enough values to unpack")
      | ExecTruncated rows truncated columns =>
          let display_columns :=
            if negb use_rowid && negb is_view then "Link" :: columns else columns in
          table_rows ←
            (if is_view then Ok None
             else n ← table_rows_of databases name table; Ok (Some n));
          next_value ← next_value_of ds is_view use_rowid pks next rows;
          Ok ({| td_database := name; td_table := table; td_is_view := is_view;
                 td_rows := slice_to (page_size ds) rows;
                 td_truncated := truncated; td_table_rows := table_rows;
                 td_columns := columns; td_primary_keys := pks;
                 td_query := q; td_query_sql := sql; td_query_params := params;
                 td_next_value := next_value; td_next := next_str next_value |},
              {| tt_database_hash := hash; tt_use_rowid := use_rowid;
                 tt_display_columns := display_columns;
                 tt_display_rows :=
                   make_display_rows name hash table rows display_columns pks
                     is_view use_rowid |})
      end
  end.
End DisplayRows.

(** ** Example data *)

(** The table of the spec's pagination example: primary key [(a, b)], rows
    [(1,1), (1,2), (2,1)]. *)
Definition compound_table : relation := {|
  rel_is_view := false;
  rel_table_info := [("a", 1); ("b", 2)];
  rel_rows := [(1, [VInt 1; VInt 1]); (2, [VInt 1; VInt 2]); (3, [VInt 2; VInt 1])];
|}.

(** The same rows under a single integer key [id], without a key, and as a
    view. *)
Definition single_table : relation := {|
  rel_is_view := false;
  rel_table_info := [("id", 1); ("b", 0)];
  rel_rows := [(1, [VInt 10; VInt 1]); (2, [VInt 20; VInt 2]); (3, [VInt 30; VInt 1])];
|}.

Definition rowid_table : relation := {|
  rel_is_view := false;
  rel_table_info := [("a", 0); ("b", 0)];
  rel_rows := [(1, [VInt 1; VInt 1]); (2, [VInt 1; VInt 2]); (3, [VInt 2; VInt 1])];
|}.

Definition example_view : relation := {|
  rel_is_view := true;
  rel_table_info := [("a", 0); ("b", 0)];
  rel_rows := [(1, [VInt 1; VInt 1]); (2, [VInt 1; VInt 2]); (3, [VInt 2; VInt 1])];
|}.

Definition example_db : gmap string relation :=
  {[ "t" := compound_table; "s" := single_table;
     "r" := rowid_table; "v" := example_view ]}.

Definition example_tables : gmap string TableInfo :=
  {[ "t" := {| count := 3; foreign_keys := [] |};
     "s" := {| count := 3; foreign_keys := [] |};
     "r" := {| count := 3; foreign_keys := [] |} ]}.

Definition example_databases : gmap string DatabaseInfo :=
  {[ "fixtures" := {| db_hash := "0123456789abcdef"; db_file := "fixtures.db";
                      db_tables := example_tables |};
     "my-db" := {| db_hash := "fedcba9876543210"; db_file := "my-db.db";
                   db_tables := ∅ |} ]}.

(** The same registry with a database [my] beside [my-db]. *)
Definition shadowing_databases : gmap string DatabaseInfo :=
  <[ "my" := {| db_hash := "aaaaaaaaaa"; db_file := "my.db"; db_tables := ∅ |} ]>
    example_databases.

Definition example_ds : Datasette := {|
  files := ["fixtures.db"; "my-db.db"];
  page_size := 2;
  max_returned_rows := 1000;
  sql_time_limit_ms := 1000;
  _inspect := Some example_databases;
|}.

(** [request.args] with the single argument [_next=cursor]. *)
Definition next_args (cursor : string) : gmap string (string * list string) :=
  {[ "_next" := (cursor, []) ]}.

(** The keyword arguments of a row request [/db/t/1,2.json]. *)
Definition example_kw : kwargs := {|
  kw_table := Some "t";
  kw_pk_path := Some "1,2";
  kw_as_json := Some ".json";
  kw_as_db := None;
|}.

(** A configuration that returns at most two rows, and a connection whose
    statements all select the same three rows. *)
Definition small_ds : Datasette := {|
  files := [];
  page_size := 2;
  max_returned_rows := 2;
  sql_time_limit_ms := 1000;
  _inspect := None;
|}.

Definition three_rows : list Row :=
  [[("n", VInt 1)]; [("n", VInt 2)]; [("n", VInt 3)]].

Definition three_rows_conn (limit_ms : Z) (sql : string)
    (params : gmap string string) : cursor_result :=
  CursorRows three_rows ["n"].

(** A connection on which a row lookup finds the one row of key [(1, 2)]
    when the parameters [p0] and [p1] are bound to ['1'] and ['2'], and no
    row otherwise. *)
Definition key_row_conn (limit_ms : Z) (q : row_query)
    (params : gmap string string) : cursor_result :=
  if decide (params !! "p0" = Some "1" ∧ params !! "p1" = Some "2")
  then CursorRows [[("a", VInt 1); ("b", VInt 2)]] ["a"; "b"]
  else CursorRows [] ["a"; "b"].

(** The same with a fourth row. *)
Definition four_rows : list Row := three_rows ++ [[("n", VInt 4)]].

Definition four_rows_conn (limit_ms : Z) (sql : string)
    (params : gmap string string) : cursor_result :=
  CursorRows four_rows ["n"].

(** ** Vocabulary of the statements *)

(** What follows [/name-hash] in a redirect: the table, the row-key path
    and the format suffix of the request, as far as each is present. *)
Definition path_tail (kw : kwargs) : string :=
  from_option (λ t, "/" +:+ t) "" (kw_table kw)
  +:+ from_option (λ p, "/" +:+ p) "" (kw_pk_path kw)
  +:+ default "" (kw_as_json kw)
  +:+ default "" (kw_as_db kw).

(** How a path segment is read: as [name-hash] when it splits at its last
    hyphen into a registered [name] and a [hash], and otherwise as a bare
    name without a hash. *)
Inductive reads_as (databases : gmap string DatabaseInfo)
    : string → string → option string → Prop :=
  | reads_name_hash name hash :
      str_in hyphen hash = false →
      is_Some (databases !! name) →
      reads_as databases (name +:+ "-" +:+ hash) name (Some hash)
  | reads_bare_name db_name :
      (∀ name hash, db_name = name +:+ "-" +:+ hash →
         str_in hyphen hash = false → databases !! name = None) →
      reads_as databases db_name db_name None.

(** The outcome of [resolve_db_name] once the segment has been read. *)
Definition resolved (databases : gmap string DatabaseInfo) (kw : kwargs)
    (name : string) (hash : option string)
    : result (string * string * option string) :=
  match databases !! name with
  | None => Raise (NotFound ("Database not found: " +:+ name))
  | Some info =>
      let expected := str_take 7 (db_hash info) in
      Ok (name, expected,
          if decide (Some expected = hash) then None
          else Some ("/" +:+ name +:+ "-" +:+ expected +:+ path_tail kw))
  end.

(** The registry entry a readable file yields: its digest, its path as
    [str(Path(filename))] and its tables. *)
Definition scanned (path_str : string → string)
    (read_database : string → result (string * gmap string TableInfo))
    (filename : string) : option DatabaseInfo :=
  match read_database filename with
  | Ok (digest, tables) =>
      Some {| db_hash := digest; db_file := path_str filename; db_tables := tables |}
  | Raise _ => None
  end.

(** Two files, at different places of the list, have the stem [s]. *)
Definition shares_stem (stem : string → string) (fs : list string) (s : string) : Prop :=
  ∃ i j f g, (i < j)%nat ∧ fs !! i = Some f ∧ fs !! j = Some g
             ∧ stem f = s ∧ stem g = s.

(** While the loop of [inspect] runs: a file of the rest of the list whose
    stem [s] is already registered or is the stem of an earlier file. *)
Definition clashes (stem : string → string) (acc : gmap string DatabaseInfo)
    (fs : list string) (s : string) : Prop :=
  ∃ j g, fs !! j = Some g ∧ stem g = s
         ∧ (is_Some (acc !! s) ∨ ∃ i f, (i < j)%nat ∧ fs !! i = Some f ∧ stem f = s).

(** A file system on which every file is a readable, empty database. *)
Definition empty_database (filename : string) : result (string * gmap string TableInfo) :=
  Ok ("e3b0c44298fc1c14", ∅).

Definition fresh_ds (fs : list string) : Datasette := {|
  files := fs;
  page_size := 100;
  max_returned_rows := 1000;
  sql_time_limit_ms := 1000;
  _inspect := None;
|}.

(** The [:identifier] tokens of a statement as the specification words
    them: identifiers "made of letters, digits and underscores". *)
Definition identifier_char (c : ascii) : bool :=
  in_range "a" "z" c || in_range "A" "Z" c || in_range "0" "9" c
  || bool_decide (c = underscore).

Definition identifier_tokens (sql : string) : list string :=
  findall_from identifier_char None sql.

(** A connection that, as [sqlite3] does, refuses a statement one of
    whose [:identifier] placeholders has no binding, and otherwise yields
    [rows]. *)
Definition binding_conn (rows : list Row) (description : list string)
    (limit_ms : Z) (sql : string) (params : gmap string string) : cursor_result :=
  if decide (Forall (λ p, is_Some (params !! p)) (identifier_tokens sql))
  then CursorRows rows description
  else CursorError (unbound_parameter params (identifier_tokens sql)).

(** The helpers [U] with another filter builder. *)
Definition with_builder (U : Utils)
    (builder : gmap string string → list built_clause * gmap string string) : Utils := {|
  build_where_clauses := builder;
  compound_pks_from_path := @compound_pks_from_path U;
  path_from_row_pks := @path_from_row_pks U;
  escape_sqlite_table_name := @escape_sqlite_table_name U;
  unquote_plus := @unquote_plus U;
|}.

(** A validator that accepts every statement. *)
Definition accept_all (sql : string) : result unit := Ok ().

(** The offset a statement starts at: 0 without an [offset] clause. *)
Definition offset_of (q : select_query) : Z := default 0 (q_offset q).

(** The rows of what [execute] returns, in either shape. *)
Definition result_rows (r : execute_result) : list Row :=
  match r with
  | ExecRows rows => rows
  | ExecTruncated rows _ _ => rows
  end.

(** Every character of [s] satisfies [P]. *)
Fixpoint str_forall (P : ascii → bool) (s : string) : bool :=
  match s with
  | "" => true
  | String a s' => P a && str_forall P s'
  end.

(** A decimal digit; a character that is not white space. *)
Definition is_digit (c : ascii) : bool :=
  match Ascii.is_nat c with
  | Some _ => true
  | None => false
  end.

Definition not_space (c : ascii) : bool := negb (py_isspace c).

(** The exceptions [view_get] turns into an error page. *)
Definition caught (e : exn) : option string :=
  match e with
  | OperationalError msg | InvalidSql msg => Some msg
  | _ => None
  end.

(** The ['columns'] and ['rows'] entries of what [custom_sql] returns. *)
Definition cs_columns_opt (d : custom_sql_data) : option (list string) :=
  Some (cs_columns d).

Definition cs_rows_opt (d : custom_sql_data) : option (list Row) :=
  Some (cs_rows d).

(** The statement of a row lookup. *)
Definition lookup_statement `{!Utils} (db : gmap string relation) (table : string)
    : row_query :=
  {| rq_with_rowid := (RowView.lookup_keys db (unquote_plus table)).1;
     rq_table := unquote_plus table;
     rq_wheres := RowView.wheres_of (RowView.lookup_keys db (unquote_plus table)).2 |}.

(** How a value is shown in a cell. *)
Definition shown (v : value) : display_value :=
  match v with
  | VNull => Markup "&nbsp;"
  | v => Text (str_of_value v)
  end.

(** * Properties *)

(** ** Strings *)

Lemma app_cons a s t : String a s +:+ t = String a (s +:+ t).
Proof. reflexivity. Qed.

Lemma app_empty_l s : "" +:+ s = s.
Proof. reflexivity. Qed.

Lemma app_empty_r s : s +:+ "" = s.
Proof. induction s as [|a s IH]; [done|]. by rewrite app_cons, IH. Qed.

Lemma app_assoc_str s t u : (s +:+ t) +:+ u = s +:+ t +:+ u.
Proof. induction s as [|a s IH]; [done|]. by rewrite !app_cons, IH. Qed.

Lemma str_in_app c s t : str_in c (s +:+ t) = str_in c s || str_in c t.
Proof.
  induction s as [|a s IH]; [done|].
  rewrite app_cons. simpl. by destruct (decide (a = c)).
Qed.

(** [rsplit_last] finds a split exactly when the separator occurs. *)
Lemma rsplit_last_None sep s : rsplit_last sep s = None ↔ str_in sep s = false.
Proof.
  induction s as [|a s IH]; simpl; [done|].
  destruct (rsplit_last sep s) as [[l r]|].
  - destruct (decide (a = sep)); [done|].
    split; [done|]. intros Hin. apply IH in Hin. done.
  - destruct (decide (a = sep)); [done|]. by rewrite <-IH.
Qed.

(** The split is at the last separator: nothing after it holds one. *)
Lemma rsplit_last_Some sep s l r :
  rsplit_last sep s = Some (l, r) ↔ s = l +:+ String sep r ∧ str_in sep r = false.
Proof.
  revert l. induction s as [|a s IH]; intros l; simpl.
  - split; [done|]. intros [Hs _]. by destruct l.
  - destruct (rsplit_last sep s) as [[l' r']|] eqn:Hs.
    + split.
      * intros [= <- <-]. destruct (proj1 (IH l') eq_refl) as [-> ?]. done.
      * intros [Heq Hr]. destruct l as [|b l].
        -- rewrite app_empty_l in Heq. injection Heq as -> ->.
           apply rsplit_last_None in Hr. congruence.
        -- rewrite app_cons in Heq. injection Heq as -> Heq.
           assert (Some (l', r') = Some (l, r)) as [= -> ->]; [|done].
           apply IH. done.
    + apply rsplit_last_None in Hs. destruct (decide (a = sep)) as [->|Hne].
      * split.
        -- intros [= <- <-]. done.
        -- intros [Heq Hr]. destruct l as [|b l].
           ++ rewrite app_empty_l in Heq. by injection Heq as ->.
           ++ rewrite app_cons in Heq. injection Heq as -> ->.
              rewrite str_in_app in Hs. simpl in Hs.
              rewrite decide_True in Hs by done.
              by rewrite orb_true_r in Hs.
      * split; [done|]. intros [Heq Hr]. destruct l as [|b l].
        -- rewrite app_empty_l in Heq. by injection Heq as ->.
        -- rewrite app_cons in Heq. injection Heq as -> ->.
           rewrite str_in_app in Hs. simpl in Hs.
           rewrite decide_True in Hs by done.
           by rewrite orb_true_r in Hs.
Qed.

(** ** Name resolution *)

Lemma add_segments_tail name expected kw :
  add_segment "" (kw_as_db kw)
    (add_segment "" (kw_as_json kw)
       (add_segment "/" (kw_pk_path kw)
          (add_segment "/" (kw_table kw) ("/" +:+ name +:+ "-" +:+ expected))))
  = "/" +:+ name +:+ "-" +:+ expected +:+ path_tail kw.
Proof.
  unfold path_tail, add_segment.
  destruct (kw_table kw), (kw_pk_path kw), (kw_as_json kw), (kw_as_db kw);
    simpl; rewrite ?app_assoc_str, ?app_empty_l, ?app_empty_r, ?app_cons;
    repeat f_equal; rewrite ?app_assoc_str, ?app_empty_l, ?app_empty_r, ?app_cons; done.
Qed.

Lemma reads_as_total databases db_name :
  ∃ name hash, reads_as databases db_name name hash.
Proof.
  destruct (rsplit_last hyphen db_name) as [[l r]|] eqn:Hs.
  - apply rsplit_last_Some in Hs as [-> Hr].
    destruct (databases !! l) as [info|] eqn:Hl.
    + exists l, (Some r). by constructor.
    + eexists _, None. constructor. intros name hash Heq Hh.
      assert (rsplit_last hyphen (l +:+ String hyphen r) = Some (l, r)) as H1
        by by apply rsplit_last_Some.
      assert (rsplit_last hyphen (name +:+ "-" +:+ hash) = Some (name, hash)) as H2
        by by apply rsplit_last_Some.
      rewrite Heq, H2 in H1. by injection H1 as -> ->.
  - eexists _, None. constructor. intros name hash -> Hh.
    assert (rsplit_last hyphen (name +:+ "-" +:+ hash) = Some (name, hash)) as Heq
      by by apply rsplit_last_Some.
    congruence.
Qed.

Lemma resolve_db_name_reads databases db_name kw name hash :
  reads_as databases db_name name hash →
  resolve_db_name databases db_name kw = resolved databases kw name hash.
Proof.
  intros Hr. unfold resolve_db_name, resolved.
  assert ((if str_in hyphen db_name
           then match rsplit1 hyphen db_name with
                | [name; hash] =>
                    if decide (is_Some (databases !! name))
                    then Ok (name, Some hash) else Ok (db_name, None)
                | _ => Raise (ValueError "not enough values to unpack")
                end
           else Ok (db_name, None)) = Ok (name, hash)) as ->.
  { destruct Hr as [name hash Hh Hn|db_name Hnone].
    - rewrite str_in_app. simpl. rewrite orb_true_r.
      unfold rsplit1.
      rewrite (proj2 (rsplit_last_Some hyphen _ name hash)) by done.
      by rewrite decide_True.
    - destruct (str_in hyphen db_name) eqn:Hin; [|done].
      unfold rsplit1. destruct (rsplit_last hyphen db_name) as [[l r]|] eqn:Hs.
      + apply rsplit_last_Some in Hs as [Heq Hr'].
        rewrite decide_False; [done|].
        rewrite (Hnone l r Heq Hr'). by intros [? ?].
      + apply rsplit_last_None in Hs. congruence. }
  simpl. destruct (databases !! name) as [info|]; [|done].
  rewrite add_segments_tail.
  destruct (decide (Some (str_take 7 (db_hash info)) ≠ hash)) as [Hne|Heq].
  - by rewrite decide_False.
  - apply dec_stable in Heq. by rewrite decide_True.
Qed.

(** C4: a path segment that reads as a registered name with a stale or
    absent hash resolves to a redirect to [/name-currentHashPrefix]
    followed by the table, row-key path and format suffix of the request;
    [resolve_db_name] raises only [NotFound], and only when the name the
    segment reads as is not registered. *)
Theorem C4_stale_or_absent_hash_redirects databases db_name kw name hash :
  reads_as databases db_name name hash →
  (∀ info, databases !! name = Some info →
     Some (str_take 7 (db_hash info)) ≠ hash →
     resolve_db_name databases db_name kw
     = Ok (name, str_take 7 (db_hash info),
           Some ("/" +:+ name +:+ "-" +:+ str_take 7 (db_hash info) +:+ path_tail kw)))
  ∧ (∀ e, resolve_db_name databases db_name kw = Raise e ↔
          databases !! name = None ∧ e = NotFound ("Database not found: " +:+ name)).
Proof.
  intros Hr. rewrite (resolve_db_name_reads _ _ _ _ _ Hr). unfold resolved. split.
  - intros info -> Hne. simpl. destruct (decide _); done.
  - intros e. destruct (databases !! name) as [info|].
    + split; [done|]. by intros [? _].
    + split; [by intros [= <-]|]. by intros [_ ->].
Qed.

Lemma C4_witness :
  reads_as example_databases "fixtures-0000000" "fixtures" (Some "0000000")
  ∧ resolve_db_name example_databases "fixtures-0000000" example_kw
    = Ok ("fixtures", "0123456", Some "/fixtures-0123456/t/1,2.json").
Proof.
  assert (reads_as example_databases "fixtures-0000000" "fixtures" (Some "0000000")) as Hr.
  { apply (reads_name_hash example_databases "fixtures" "0000000"); [reflexivity|].
    eexists. reflexivity. }
  split; [exact Hr|].
  refine (proj1 (C4_stale_or_absent_hash_redirects _ _ example_kw _ _ Hr)
            {| db_hash := "0123456789abcdef"; db_file := "fixtures.db";
               db_tables := example_tables |} _ _).
  - reflexivity.
  - discriminate.
Defined.

(** C9, as the code has it: for a registered name that contains a hyphen,
    when the part before its last hyphen is not a registered name, the
    whole segment is taken as the name, with no hash, and resolves to the
    redirect to its own current path; when that part is a registered name
    too, the segment resolves to the database of that name, the rest being
    read as its hash. *)
Theorem C9_hyphenated_name_resolves databases db_name kw info :
  str_in hyphen db_name = true →
  databases !! db_name = Some info →
  ((∀ name hash, db_name = name +:+ "-" +:+ hash →
      str_in hyphen hash = false → databases !! name = None) →
   resolve_db_name databases db_name kw
   = Ok (db_name, str_take 7 (db_hash info),
         Some ("/" +:+ db_name +:+ "-" +:+ str_take 7 (db_hash info)
               +:+ path_tail kw)))
  ∧ (∀ name hash info', db_name = name +:+ "-" +:+ hash →
       str_in hyphen hash = false →
       databases !! name = Some info' →
       resolve_db_name databases db_name kw
       = Ok (name, str_take 7 (db_hash info'),
             if decide (Some (str_take 7 (db_hash info')) = Some hash) then None
             else Some ("/" +:+ name +:+ "-" +:+ str_take 7 (db_hash info')
                        +:+ path_tail kw))).
Proof.
  intros _ Hdb. split.
  - intros Hnone. assert (reads_as databases db_name db_name None) as Hr
      by by constructor.
    rewrite (resolve_db_name_reads _ _ _ _ _ Hr). unfold resolved.
    by rewrite Hdb.
  - intros name hash info' -> Hhash Hname.
    assert (reads_as databases (name +:+ "-" +:+ hash) name (Some hash)) as Hr
      by (constructor; [done|eauto]).
    rewrite (resolve_db_name_reads _ _ _ _ _ Hr). unfold resolved.
    by rewrite Hname.
Qed.

Lemma C9_witness :
  resolve_db_name example_databases "my-db" example_kw
  = Ok ("my-db", "fedcba9", Some "/my-db-fedcba9/t/1,2.json").
Proof.
  refine (proj1 (C9_hyphenated_name_resolves example_databases "my-db" example_kw
            {| db_hash := "fedcba9876543210"; db_file := "my-db.db"; db_tables := ∅ |}
            _ _) _); [reflexivity|reflexivity|].
  intros name hash Heq Hhash.
  assert (rsplit_last hyphen (name +:+ "-" +:+ hash) = Some (name, hash)) as Hsplit
    by by apply rsplit_last_Some.
  rewrite <-Heq in Hsplit. vm_compute in Hsplit. injection Hsplit as <- <-.
  reflexivity.
Defined.

(** C9 as stated fails when the part before the last hyphen is a
    registered name too: with [my] and [my-db] both registered, the bare
    name [my-db] resolves to the database [my], [db] being read as a stale
    hash of it. *)
Lemma C9_prefix_shadows_name :
  shadowing_databases !! "my-db"
  = Some {| db_hash := "fedcba9876543210"; db_file := "my-db.db"; db_tables := ∅ |}
  ∧ str_in hyphen "my-db" = true
  ∧ resolve_db_name shadowing_databases "my-db" example_kw
    = Ok ("my", "aaaaaaa", Some "/my-aaaaaaa/t/1,2.json").
Proof. split; [reflexivity|]. split; reflexivity. Qed.

(** ** The executor *)

Lemma len_take {A} (n : Z) (l : list A) :
  0 ≤ n → len (take (Z.to_nat n) l) = Z.min n (len l).
Proof. intros Hn. unfold len. rewrite length_take. lia. Qed.

Lemma slice_to_nonneg {A} (n : Z) (l : list A) :
  0 ≤ n → slice_to n l = take (Z.to_nat n) l.
Proof. intros Hn. unfold slice_to. by rewrite (proj2 (Z.leb_le 0 n)). Qed.

(** [execute] in terms of the statement's result set. *)
Lemma execute_unfold {Sql} (conn : Z → Sql → gmap string string → cursor_result)
    ds sql params truncate custom :
  execute conn ds sql params truncate custom
  = match conn (time_limit_ms ds custom) sql params with
    | CursorError e => Raise e
    | CursorRows all_rows description =>
        if negb (max_returned_rows ds =? 0) && truncate then
          Ok (ExecTruncated
                (slice_to (max_returned_rows ds)
                   (fetchmany (max_returned_rows ds + 1) all_rows).1)
                (len (fetchmany (max_returned_rows ds + 1) all_rows).1
                 >? max_returned_rows ds)
                description)
        else if truncate then Ok (ExecTruncated all_rows false description)
        else Ok (ExecRows all_rows)
    end.
Proof.
  unfold execute, sql_operation_in_thread.
  destruct (conn _ sql params) as [e|all_rows description]; [done|].
  destruct (max_returned_rows ds =? 0), truncate; cbn [negb andb]; try done.
  by destruct (fetchmany _ _).
Qed.

(** What [fetchmany] reads is an initial segment of the rows. *)
Lemma fetchmany_prefix size (pending : list Row) :
  (fetchmany size pending).1 `prefix_of` pending.
Proof.
  unfold fetchmany. destruct (size <=? 0); simpl; [done|apply prefix_take].
Qed.

Lemma fetchmany_positive size (pending : list Row) :
  0 < size →
  fetchmany size pending
  = (take (Z.to_nat size) pending, drop (Z.to_nat size) pending).
Proof. intros Hs. unfold fetchmany. by rewrite (proj2 (Z.leb_gt size 0)). Qed.

Lemma slice_to_prefix {A} (n : Z) (l : list A) : slice_to n l `prefix_of` l.
Proof. unfold slice_to. destruct (0 <=? n); apply prefix_take. Qed.

Lemma execute_rows_prefix {Sql}
    (conn : Z → Sql → gmap string string → cursor_result)
    ds sql params truncate custom all_rows description :
  conn (time_limit_ms ds custom) sql params = CursorRows all_rows description →
  ∃ r, execute conn ds sql params truncate custom = Ok r
       ∧ result_rows r `prefix_of` all_rows.
Proof.
  intros Hconn. rewrite execute_unfold, Hconn.
  destruct (negb (max_returned_rows ds =? 0) && truncate).
  - eexists. split; [done|]. simpl.
    etrans; [apply slice_to_prefix|apply fetchmany_prefix].
  - destruct truncate; eexists; (split; [done|]); done.
Qed.

Lemma execute_Ok_inv {Sql} (conn : Z → Sql → gmap string string → cursor_result)
    ds sql params truncate custom r :
  execute conn ds sql params truncate custom = Ok r →
  ∃ all_rows description,
    conn (time_limit_ms ds custom) sql params = CursorRows all_rows description
    ∧ result_rows r `prefix_of` all_rows.
Proof.
  intros Hr. destruct (conn (time_limit_ms ds custom) sql params)
    as [e|all_rows description] eqn:Hconn.
  - rewrite execute_unfold in Hr. by rewrite Hconn in Hr.
  - destruct (execute_rows_prefix conn ds sql params truncate custom _ _ Hconn)
      as (r' & Hr' & Hp).
    assert (r' = r) as -> by congruence. eauto.
Qed.

Lemma execute_truncated_inv {Sql}
    (conn : Z → Sql → gmap string string → cursor_result)
    ds sql params custom rows truncated description :
  execute conn ds sql params true custom
  = Ok (ExecTruncated rows truncated description) →
  ∃ all_rows,
    conn (time_limit_ms ds custom) sql params = CursorRows all_rows description
    ∧ rows `prefix_of` all_rows.
Proof.
  intros Hr. pose proof Hr as Hr'. rewrite execute_unfold in Hr'.
  apply execute_Ok_inv in Hr as (all_rows & description' & Hconn & Hprefix).
  rewrite Hconn in Hr'. exists all_rows.
  destruct (negb (max_returned_rows ds =? 0) && true);
    injection Hr' as _ _ ->; done.
Qed.

(** With a limit that is not negative, [execute] returns no row only when
    the statement has none. *)
Lemma execute_truncated_nil {Sql}
    (conn : Z → Sql → gmap string string → cursor_result)
    ds sql params custom all_rows description :
  0 ≤ max_returned_rows ds →
  conn (time_limit_ms ds custom) sql params = CursorRows all_rows description →
  ∃ rows truncated,
    execute conn ds sql params true custom
    = Ok (ExecTruncated rows truncated description)
    ∧ rows `prefix_of` all_rows
    ∧ (rows = [] ↔ all_rows = []).
Proof.
  intros Hmax Hconn. rewrite execute_unfold, Hconn.
  destruct (max_returned_rows ds =? 0) eqn:Hz; cbn [negb andb].
  - eexists _, _. split; [done|]. done.
  - eexists _, _. split; [done|].
    rewrite fetchmany_positive by lia. cbn [fst].
    rewrite slice_to_nonneg, take_take by lia.
    split; [apply prefix_take|].
    destruct all_rows as [|row all_rows]; [by rewrite take_nil|].
    replace (Z.to_nat (max_returned_rows ds) `min` Z.to_nat (max_returned_rows ds + 1))%nat
      with (S (Z.to_nat (max_returned_rows ds) - 1)) by lia.
    done.
Qed.

(** The connection is consulted under the effective limit only. *)
Lemma execute_time_limit {Sql} (conn : Z → Sql → gmap string string → cursor_result)
    ds sql params truncate custom :
  execute conn ds sql params truncate custom
  = execute (λ _, conn (time_limit_ms ds custom)) ds sql params truncate custom.
Proof. reflexivity. Qed.

(** C2: with truncation in force (a positive [max_returned_rows] and
    [truncate=True]) a successful [execute] reads at most
    [max_returned_rows + 1] rows off the cursor and leaves the others
    unread, returns the first [max_returned_rows] of the statement's rows
    (the extra row read is dropped), and sets [truncated] exactly when the
    statement has more rows than [max_returned_rows]. *)
Theorem C2_execute_truncates {Sql}
    (conn : Z → Sql → gmap string string → cursor_result)
    ds sql params custom all_rows description :
  0 < max_returned_rows ds →
  conn (time_limit_ms ds custom) sql params = CursorRows all_rows description →
  ∃ rows truncated read unread,
    sql_operation_in_thread conn ds sql params true custom
    = Ok (ExecTruncated rows truncated description, unread)
    ∧ execute conn ds sql params true custom
      = Ok (ExecTruncated rows truncated description)
    ∧ all_rows = read ++ unread
    ∧ len read ≤ max_returned_rows ds + 1
    ∧ rows = take (Z.to_nat (max_returned_rows ds)) read
    ∧ (truncated = true ↔ max_returned_rows ds < len all_rows)
    ∧ len rows ≤ max_returned_rows ds
    ∧ rows = take (Z.to_nat (max_returned_rows ds)) all_rows.
Proof.
  intros Hmax Hconn. unfold execute, sql_operation_in_thread. rewrite Hconn.
  assert ((max_returned_rows ds =? 0) = false) as -> by lia. cbn [negb andb].
  rewrite fetchmany_positive by lia. cbn [mbind result_bind fst].
  eexists _, _, (take (Z.to_nat (max_returned_rows ds + 1)) all_rows), _.
  split; [reflexivity|]. split; [reflexivity|].
  split; [by rewrite take_drop|].
  rewrite slice_to_nonneg, take_take by lia.
  replace (Z.to_nat (max_returned_rows ds) `min` Z.to_nat (max_returned_rows ds + 1))%nat
    with (Z.to_nat (max_returned_rows ds)) by lia.
  rewrite !len_take by lia. rewrite Z.gtb_ltb, Z.ltb_lt. repeat split; lia.
Qed.

Lemma C2_witness :
  ∃ rows truncated read unread,
    sql_operation_in_thread four_rows_conn small_ds "select n from t" ∅ true None
    = Ok (ExecTruncated rows truncated ["n"], unread)
    ∧ execute four_rows_conn small_ds "select n from t" ∅ true None
      = Ok (ExecTruncated rows truncated ["n"])
    ∧ four_rows = read ++ unread
    ∧ len read ≤ 3
    ∧ rows = take 2 read
    ∧ (truncated = true ↔ 2 < len four_rows)
    ∧ len rows ≤ 2
    ∧ rows = take 2 four_rows.
Proof.
  apply (C2_execute_truncates four_rows_conn small_ds "select n from t" ∅ None
           four_rows ["n"]); reflexivity.
Defined.




(** ** The registry *)

Section RegistryFacts.
Variable stem : string → string.
Variable path_str : string → string.
Variable read_database : string → result (string * gmap string TableInfo).

Lemma scanned_is_Some f :
  is_ok (read_database f) = true → is_Some (scanned path_str read_database f).
Proof. unfold scanned. destruct (read_database f) as [[??]|]; [eauto|done]. Qed.

(** Distinct, unregistered stems: the loop registers every file. *)
Lemma inspect_files_distinct fs acc :
  (∀ f, f ∈ fs → is_ok (read_database f) = true) →
  NoDup (stem <$> fs) →
  (∀ f, f ∈ fs → acc !! stem f = None) →
  ∃ m, inspect_files stem path_str read_database fs acc = (Ok (), m)
       ∧ size m = (size acc + length fs)%nat
       ∧ (∀ f, f ∈ fs → m !! stem f = scanned path_str read_database f)
       ∧ (∀ k, k ∉ stem <$> fs → m !! k = acc !! k).
Proof.
  revert acc. induction fs as [|f fs IH]; intros acc Hread Hnd Hfresh; simpl.
  - exists acc. repeat split; [lia|]. intros f Hf. by apply elem_of_nil in Hf.
  - rewrite decide_False; last first.
    { rewrite (Hfresh f) by left. by intros [? ?]. }
    pose proof (Hread f (list_elem_of_here _ _)) as Hf.
    destruct (read_database f) as [[digest tables]|e] eqn:Hrd; [|done].
    apply NoDup_cons in Hnd as [Hnotin Hnd].
    destruct (IH (<[stem f := {| db_hash := digest; db_file := path_str f;
                                  db_tables := tables |}]> acc))
      as (m & Hm & Hsize & Hin & Hout).
    + intros g Hg. apply Hread. by right.
    + done.
    + intros g Hg. rewrite lookup_insert_ne.
      * apply Hfresh. by right.
      * intros Heq. apply Hnotin. rewrite Heq. by apply list_elem_of_fmap_2.
    + exists m. split; [done|]. split; [|split].
      * rewrite Hsize, map_size_insert_None by (apply Hfresh; left). lia.
      * intros g [->|Hg]%elem_of_cons.
        -- rewrite Hout by done. rewrite lookup_insert_eq.
           unfold scanned. by rewrite Hrd.
        -- by apply Hin.
      * intros k Hk. apply (not_elem_of_cons (stem <$> fs)) in Hk as [Hne Hk].
        rewrite Hout by done. by rewrite lookup_insert_ne.
Qed.

Lemma clashes_step acc f fs info s :
  acc !! stem f = None →
  clashes stem acc (f :: fs) s ↔ clashes stem (<[stem f := info]> acc) fs s.
Proof.
  intros Hfresh. split.
  - intros (j & g & Hj & Hg & Hwhy). destruct j as [|j].
    + injection Hj as ->. destruct Hwhy as [[x Hx]|(i & ? & Hlt & _)]; [|lia].
      rewrite Hg in Hfresh. congruence.
    + exists j, g. split; [done|]. split; [done|].
      destruct Hwhy as [[x Hx]|(i & h & Hlt & Hi & Hh)].
      * left. destruct (decide (stem f = s)) as [<-|Hne].
        -- rewrite lookup_insert_eq. eauto.
        -- rewrite lookup_insert_ne by done. eauto.
      * destruct i as [|i].
        -- injection Hi as ->. left. rewrite <-Hh, lookup_insert_eq. eauto.
        -- right. exists i, h. split; [lia|done].
  - intros (j & g & Hj & Hg & Hwhy). exists (S j), g. split; [done|]. split; [done|].
    destruct Hwhy as [[x Hx]|(i & h & Hlt & Hi & Hh)].
    + destruct (decide (stem f = s)) as [Heq|Hne].
      * right. exists 0%nat, f. split; [lia|done].
      * left. rewrite lookup_insert_ne in Hx by done. eauto.
    + right. exists (S i), h. split; [lia|done].
Qed.

(** A clash stops the loop: it never completes, and when the files are
    readable the exception names a clashing stem. *)
Lemma inspect_files_clash fs acc s :
  clashes stem acc fs s →
  is_ok (inspect_files stem path_str read_database fs acc).1 = false
  ∧ ((∀ f, f ∈ fs → is_ok (read_database f) = true) →
     ∃ s', clashes stem acc fs s'
           ∧ (inspect_files stem path_str read_database fs acc).1
             = Raise (Exception ("Multiple files with same stem " +:+ s'))).
Proof.
  revert acc. induction fs as [|f fs IH]; intros acc Hc.
  - destruct Hc as (j & g & Hj & _). by rewrite lookup_nil in Hj.
  - simpl. destruct (decide (is_Some (acc !! stem f))) as [Hreg|Hfresh].
    + split; [done|]. intros _. exists (stem f). split; [|done].
      exists 0%nat, f. eauto.
    + assert (acc !! stem f = None) as Hnone.
      { destruct (acc !! stem f) eqn:E; [|done]. destruct Hfresh. eauto. }
      destruct (read_database f) as [[digest tables]|e] eqn:Hrd.
      * set (info := {| db_hash := digest; db_file := path_str f; db_tables := tables |}).
        apply (clashes_step acc f fs info s Hnone) in Hc.
        destruct (IH _ Hc) as [Hnok Hmsg]. split; [done|].
        intros Hread. destruct Hmsg as (s' & Hc' & Hres).
        { intros g Hg. apply Hread. by right. }
        exists s'. split; [|done]. by apply (clashes_step acc f fs info s' Hnone).
      * split; [done|]. intros Hread.
        pose proof (Hread f (list_elem_of_here _ _)) as Hf. by rewrite Hrd in Hf.
Qed.

Lemma clashes_empty fs s : clashes stem ∅ fs s ↔ shares_stem stem fs s.
Proof.
  split.
  - intros (j & g & Hj & Hg & [[x Hx]|(i & f & Hlt & Hi & Hf)]).
    + by rewrite lookup_empty in Hx.
    + exists i, j, f, g. done.
  - intros (i & j & f & g & Hlt & Hi & Hj & Hf & Hg).
    exists j, g. split; [done|]. split; [done|]. right. by exists i, f.
Qed.

(** C8: on a registry that has not been filled yet, [inspect()] with two
    files of one stem returns no mapping, and raises the exception naming
    such a stem when the files are readable; with all stems distinct it
    returns one entry per file, keyed by its stem. *)
Theorem C8_inspect_duplicate_stems ds :
  inspect_unset ds = true →
  (∀ f, f ∈ files ds → is_ok (read_database f) = true) →
  ((∃ s, shares_stem stem (files ds) s) →
     ∃ s, shares_stem stem (files ds) s
          ∧ (inspect stem path_str read_database ds).1
            = Raise (Exception ("Multiple files with same stem " +:+ s)))
  ∧ (NoDup (stem <$> files ds) →
     ∃ m, (inspect stem path_str read_database ds).1 = Ok m
          ∧ size m = length (files ds)
          ∧ (∀ f, f ∈ files ds →
               is_Some (m !! stem f) ∧ m !! stem f = scanned path_str read_database f)
          ∧ (∀ k, is_Some (m !! k) → k ∈ stem <$> files ds)).
Proof.
  intros Hunset Hread. unfold inspect. rewrite Hunset. split.
  - intros [s Hs]. apply clashes_empty in Hs.
    destruct (inspect_files_clash _ _ _ Hs) as [_ Hmsg].
    destruct (Hmsg Hread) as (s' & Hc & Hres).
    exists s'. split; [by apply clashes_empty|].
    destruct (inspect_files stem path_str read_database (files ds) ∅) as [r m].
    simpl in *. by rewrite Hres.
  - intros Hnd.
    destruct (inspect_files_distinct (files ds) ∅ Hread Hnd)
      as (m & Hm & Hsize & Hin & Hout); [by intros; apply lookup_empty|].
    rewrite Hm. exists m. simpl. split; [done|]. split; [|split].
    + rewrite Hsize, map_size_empty. lia.
    + intros f Hf. rewrite Hin by done. split; [|done].
      apply scanned_is_Some. by apply Hread.
    + intros k Hk. destruct (decide (k ∈ stem <$> files ds)) as [|Hnot]; [done|].
      rewrite Hout, lookup_empty in Hk by done. by destruct Hk.
Qed.

(** Two files of one stem never yield a mapping, readable or not. *)
Lemma inspect_duplicate_never_ok ds s :
  inspect_unset ds = true →
  shares_stem stem (files ds) s →
  is_ok (inspect stem path_str read_database ds).1 = false.
Proof.
  intros Hunset Hs%clashes_empty. unfold inspect. rewrite Hunset.
  destruct (inspect_files_clash _ _ _ Hs) as [Hnok _].
  destruct (inspect_files stem path_str read_database (files ds) ∅) as [r m].
  simpl in *. by destruct r.
Qed.
End RegistryFacts.

Lemma C8_witness :
  ∃ s, shares_stem posix_stem ["a/x.db"; "y.db"; "b/x.db"] s
       ∧ (inspect posix_stem posix_path_str empty_database (fresh_ds ["a/x.db"; "y.db"; "b/x.db"])).1
         = Raise (Exception ("Multiple files with same stem " +:+ s)).
Proof.
  refine (proj1 (C8_inspect_duplicate_stems posix_stem posix_path_str empty_database
                   (fresh_ds ["a/x.db"; "y.db"; "b/x.db"]) _ _) _).
  - reflexivity.
  - intros f _. reflexivity.
  - exists "x", 0%nat, 2%nat, "a/x.db", "b/x.db".
    split; [apply Nat.lt_0_succ|]. repeat split.
Defined.

(** The registry after the failed call holds the files read so far, so a
    second call returns that partial mapping instead of raising again. *)
Lemma inspect_after_failure :
  let ds := fresh_ds ["a/x.db"; "y.db"; "b/x.db"] in
  let ds' := (inspect posix_stem posix_path_str empty_database ds).2 in
  (inspect posix_stem posix_path_str empty_database ds).1
  = Raise (Exception "Multiple files with same stem x")
  ∧ ∃ m, (inspect posix_stem posix_path_str empty_database ds').1 = Ok m
         ∧ size m = 2%nat ∧ is_Some (m !! "x") ∧ is_Some (m !! "y").
Proof.
  split; [reflexivity|]. eexists. split; [reflexivity|].
  split; [reflexivity|]. split; vm_compute; eauto.
Qed.

(** ** Custom SQL *)

Lemma if_elem_of_cons_ne {B} (p q : string) (l : list string) (x y : B) :
  p ≠ q →
  (if decide (p ∈ q :: l) then x else y) = (if decide (p ∈ l) then x else y).
Proof.
  intros Hne. destruct (decide (p ∈ q :: l)) as [Hin|Hnin], (decide (p ∈ l)) as [Hl|Hl];
    try done.
  - apply elem_of_cons in Hin as [->|Hin]; done.
  - destruct Hnin. by right.
Qed.

Lemma if_elem_of_cons_eq {B} (p : string) (l : list string) (x y : B) :
  (if decide (p ∈ p :: l) then x else y) = x.
Proof. destruct (decide (p ∈ p :: l)) as [|Hnin]; [done|]. destruct Hnin. by left. Qed.

Lemma bind_missing_lookup params l p :
  bind_missing params l !! p
  = match params !! p with
    | Some v => Some v
    | None => if decide (p ∈ l) then Some "" else None
    end.
Proof.
  unfold bind_missing. revert params.
  induction l as [|q l IH]; intros params; cbn [foldl].
  - destruct (params !! p); [done|].
    destruct (decide (p ∈ [])) as [Hin|]; [|done]. by apply elem_of_nil in Hin.
  - rewrite IH. clear IH. destruct (decide (is_Some (params !! q))) as [[v Hv]|Hq].
    + destruct (params !! p) eqn:Hp; [done|].
      rewrite if_elem_of_cons_ne; [done|congruence].
    + destruct (decide (p = q)) as [->|Hne].
      * rewrite lookup_insert_eq.
        destruct (params !! q) eqn:E; [destruct Hq; eauto|].
        by rewrite if_elem_of_cons_eq.
      * rewrite lookup_insert_ne by done.
        destruct (params !! p); [done|]. by rewrite if_elem_of_cons_ne.
Qed.

Lemma named_parameter_values_lookup params l p :
  named_parameter_values_of params l !! p
  = if decide (p ∈ l) then Some (default "" (params !! p)) else None.
Proof.
  unfold named_parameter_values_of.
  assert (∀ acc : gmap string string,
             foldl (λ m q, <[q := default "" (params !! q)]> m) acc l !! p
             = if decide (p ∈ l) then Some (default "" (params !! p)) else acc !! p)
    as Hgen.
  { induction l as [|q l IH]; intros acc; cbn [foldl].
    - destruct (decide (p ∈ [])) as [Hin|]; [|done]. by apply elem_of_nil in Hin.
    - rewrite IH. clear IH. destruct (decide (p = q)) as [->|Hne].
      + rewrite lookup_insert_eq, if_elem_of_cons_eq. by destruct (decide (q ∈ l)).
      + by rewrite lookup_insert_ne, if_elem_of_cons_ne. }
  rewrite Hgen. by destruct (decide (p ∈ l)).
Qed.

Section CustomSqlFacts.
Variable validate_sql_select : string → result unit.
Variable conn : Z → string → gmap string string → cursor_result.
Variable ds : Datasette.

(** What a successful [custom_sql] returns, and the call of [execute] it
    made. *)
Lemma custom_sql_Ok raw_args name d :
  custom_sql validate_sql_select conn ds raw_args name = Ok d →
  ∃ sql custom,
    raw_args !! "sql" = Some sql
    ∧ cs_query_sql d = sql
    ∧ cs_query_params d
      = bind_missing (delete "sql" raw_args) (re_named_parameter_findall sql)
    ∧ cs_named_parameter_values d
      = named_parameter_values_of (delete "sql" raw_args)
          (re_named_parameter_findall sql)
    ∧ execute conn ds sql (cs_query_params d) true custom
      = Ok (ExecTruncated (cs_rows d) (cs_truncated d) (cs_columns d)).
Proof.
  unfold custom_sql. destruct (raw_args !! "sql") as [sql|]; [|done].
  destruct (validate_sql_select sql) as [[]|]; [|done]. simpl.
  destruct (custom_time_limit_of _) as [custom|]; [|done]. simpl.
  destruct (execute conn ds sql _ true custom) as [[rows|rows truncated description]|] eqn:He;
    simpl; [done| |done].
  intros [= <-]. exists sql, custom. simpl. done.
Qed.

(** A placeholder that the scan of the statement finds and that the
    request does not supply is bound to the empty string in the
    parameters [execute] is called with, and echoed as the empty string
    in [named_parameter_values]; every placeholder the scan finds is
    bound. *)
Lemma discovered_parameters_blank raw_args name sql p :
  raw_args !! "sql" = Some sql →
  p ∈ re_named_parameter_findall sql →
  raw_args !! p = None →
  let params :=
    bind_missing (delete "sql" raw_args) (re_named_parameter_findall sql) in
  params !! p = Some ""
  ∧ (∀ q, q ∈ re_named_parameter_findall sql → is_Some (params !! q))
  ∧ ∀ d, custom_sql validate_sql_select conn ds raw_args name = Ok d →
      cs_query_params d !! p = Some ""
      ∧ cs_named_parameter_values d !! p = Some ""
      ∧ ∃ custom,
          execute conn ds sql params true custom
          = Ok (ExecTruncated (cs_rows d) (cs_truncated d) (cs_columns d)).
Proof.
  intros Hsql Hp Hnone params.
  assert (delete "sql" raw_args !! p = None) as Hdel.
  { destruct (decide (p = "sql")) as [->|Hne]; [congruence|].
    by rewrite lookup_delete_ne. }
  assert (params !! p = Some "") as Hbound.
  { unfold params. rewrite bind_missing_lookup, Hdel. by rewrite decide_True. }
  split; [done|]. split.
  - intros q Hq. unfold params. rewrite bind_missing_lookup.
    destruct (delete "sql" raw_args !! q); [eauto|]. rewrite decide_True by done. eauto.
  - intros d Hd. apply custom_sql_Ok in Hd
      as (sql' & custom & Hsql' & _ & Hparams & Hvalues & Hexec).
    assert (sql' = sql) as -> by congruence.
    fold params in Hparams. rewrite Hparams, Hvalues in *.
    split; [done|]. split; [|eauto].
    rewrite named_parameter_values_lookup, decide_True, Hdel; done.
Qed.
End CustomSqlFacts.

(** C10 at a failing input: the placeholder [:p1] is missing from the
    request; the scan finds [p] instead of [p1], so [p] is bound to the
    empty string and [p1] stays without a binding, and the statement
    fails with the missing-binding error of [sqlite3], which [view_get]
    does not turn into an error page.  A missing placeholder without a
    digit other than 0, such as [:low], is bound to the empty string and
    the statement runs. *)
Lemma C10_missing_binding_error :
  identifier_tokens "select * from t where a = :p1" = ["p1"]
  ∧ re_named_parameter_findall "select * from t where a = :p1" = ["p"]
  ∧ bind_missing ∅ (re_named_parameter_findall "select * from t where a = :p1")
      !! "p1" = None
  ∧ custom_sql accept_all (binding_conn three_rows ["n"]) example_ds
      {[ "sql" := "select * from t where a = :p1" ]} "fixtures"
    = Raise (ProgrammingError
               "You did not supply a value for binding parameter :p1.")
  ∧ caught (ProgrammingError
              "You did not supply a value for binding parameter :p1.") = None
  ∧ ∃ d, custom_sql accept_all (binding_conn three_rows ["n"]) example_ds
           {[ "sql" := "select n from t where n > :low" ]} "fixtures" = Ok d
         ∧ cs_query_params d !! "low" = Some "".
Proof.
  split; [reflexivity|]. split; [reflexivity|]. split; [reflexivity|].
  split; [reflexivity|]. split; [reflexivity|].
  eexists. split; reflexivity.
Qed.

(** C7 at a failing input: the scan of [re_named_parameter] stops at a
    digit other than 0, so for the placeholder [:p1] it finds [p] where the
    [:identifier] token is [p1]; [custom_sql] echoes and binds [p], and
    leaves [p1] unbound when the request does not send it. *)
Lemma C7_digit_placeholder_truncated :
  re_named_parameter_findall "select * from t where a = :p1" = ["p"]
  ∧ identifier_tokens "select * from t where a = :p1" = ["p1"]
  ∧ ∃ d, custom_sql accept_all three_rows_conn example_ds
           {[ "sql" := "select * from t where a = :p1"; "p1" := "5" ]} "fixtures" = Ok d
         ∧ map_to_list (cs_named_parameter_values d) = [("p", "")]
         ∧ cs_query_params d !! "p" = Some ""
         ∧ ∃ d', custom_sql accept_all three_rows_conn example_ds
                   {[ "sql" := "select * from t where a = :p1" ]} "fixtures" = Ok d'
                 ∧ cs_query_params d' !! "p1" = None.
Proof.
  split; [reflexivity|]. split; [reflexivity|].
  eexists. split; [reflexivity|]. split; [reflexivity|]. split; [reflexivity|].
  eexists. split; reflexivity.
Qed.

(** ** Special and other arguments *)

Lemma startswith_spec c s : startswith c s = true ↔ ∃ rest, s = String c rest.
Proof.
  destruct s as [|a s]; simpl.
  - split; [done|]. by intros [? ?].
  - destruct (decide (a = c)) as [->|Hne].
    + split; [eauto|done].
    + split; [done|]. intros [rest [= ? ?]]. done.
Qed.

Lemma has_dunder_cons a s :
  has_dunder (String a s)
  = match s with
    | String b _ =>
        if decide (a = underscore ∧ b = underscore) then true else has_dunder s
    | "" => false
    end.
Proof. by destruct s. Qed.

Lemma has_dunder_spec s : has_dunder s = true ↔ ∃ l r, s = l +:+ "__" +:+ r.
Proof.
  split.
  - induction s as [|a s IH]; [done|].
    rewrite has_dunder_cons. destruct s as [|b s]; [done|].
    destruct (decide (a = underscore ∧ b = underscore)) as [[-> ->]|Hne].
    + intros _. by exists "", s.
    + intros (l & r & Heq)%IH. exists (String a l), r. by rewrite app_cons, <-Heq.
  - intros (l & r & ->). induction l as [|a l IH]; [done|].
    rewrite app_cons, has_dunder_cons.
    destruct (l +:+ "__" +:+ r) as [|b t] eqn:E; [by destruct l|].
    by destruct (decide (a = underscore ∧ b = underscore)).
Qed.

(** Each key of the request goes to exactly one of the two dictionaries,
    with the first of its values. *)
Lemma partition_args_lookup args key :
  (partition_args args).1 !! key
  = (if is_special_arg key then fst <$> args !! key else None)
  ∧ (partition_args args).2 !! key
    = (if is_special_arg key then None else fst <$> args !! key).
Proof.
  unfold partition_args.
  apply (map_fold_weak_ind
           (λ (r : gmap string string * gmap string string)
              (m : gmap string (string * list string)),
              r.1 !! key = (if is_special_arg key then fst <$> m !! key else None)
              ∧ r.2 !! key = (if is_special_arg key then None else fst <$> m !! key))).
  - rewrite !lookup_empty. by destruct (is_special_arg key).
  - intros i x m [sp ot] Hi [Hsp Hot]. simpl in *.
    destruct (decide (i = key)) as [->|Hne].
    + rewrite lookup_insert_eq. destruct (is_special_arg key); simpl.
      * rewrite lookup_insert_eq. by rewrite Hot.
      * rewrite lookup_insert_eq. by rewrite Hsp.
    + rewrite (lookup_insert_ne m) by done.
      destruct (is_special_arg i); simpl; by rewrite lookup_insert_ne.
Qed.

(** No special key is among the arguments handed to the filter builder. *)
Lemma other_args_not_special args key :
  is_special_arg key = true → (partition_args args).2 !! key = None.
Proof. intros Hs. rewrite (proj2 (partition_args_lookup args key)). by rewrite Hs. Qed.

(** [TableView.data] calls the filter builder on [other_args] only: two
    builders that agree away from special keys give the same result. *)
Lemma data_builder_frame (U : Utils) b1 b2 ds databases db args name table :
  (∀ m : gmap string string,
     (∀ key, is_special_arg key = true → m !! key = None) → b1 m = b2 m) →
  data (H := with_builder U b1) ds databases db args name table
  = data (H := with_builder U b2) ds databases db args name table.
Proof.
  intros Hagree. unfold data. cbn [unquote_plus with_builder].
  destruct (db !! _) as [rel|]; [|done].
  pose proof (other_args_not_special args) as Hother.
  destruct (partition_args args) as [special_args other_args]. simpl in Hother.
  cbn [build_where_clauses with_builder].
  destruct (decide (other_args = ∅)); [done|].
  by rewrite (Hagree other_args Hother).
Qed.

(** C6: a key that begins with an underscore and contains no double
    underscore goes to [special_args] and not to [other_args], the only
    arguments the filter builder is called with; a key that contains a
    double underscore goes to [other_args], leading underscore or not. *)
Theorem C6_special_args_partition args key :
  (∀ rest, key = String underscore rest →
     (∀ l r, key ≠ l +:+ "__" +:+ r) →
     (partition_args args).1 !! key = fst <$> args !! key
     ∧ (partition_args args).2 !! key = None)
  ∧ (∀ l r, key = l +:+ "__" +:+ r →
       (partition_args args).2 !! key = fst <$> args !! key
       ∧ (partition_args args).1 !! key = None)
  ∧ (∀ (U : Utils) b1 b2 ds databases db name table,
       (∀ m : gmap string string, m !! key = None → b1 m = b2 m) →
       (∃ rest, key = String underscore rest) →
       (∀ l r, key ≠ l +:+ "__" +:+ r) →
       data (H := with_builder U b1) ds databases db args name table
       = data (H := with_builder U b2) ds databases db args name table).
Proof.
  destruct (partition_args_lookup args key) as [Hsp Hot]. split; [|split].
  - intros rest Hkey Hno.
    assert (is_special_arg key = true) as Hs.
    { unfold is_special_arg. apply andb_true_iff. split.
      - apply startswith_spec. eauto.
      - apply negb_true_iff. destruct (has_dunder key) eqn:Hd; [|done].
        apply has_dunder_spec in Hd as (l & r & Heq). by destruct (Hno l r). }
    by rewrite Hsp, Hot, Hs.
  - intros l r Hkey.
    assert (is_special_arg key = false) as Hs.
    { unfold is_special_arg. apply andb_false_iff. right. apply negb_false_iff.
      apply has_dunder_spec. eauto. }
    by rewrite Hsp, Hot, Hs.
  - intros U b1 b2 ds databases db name table Hagree Hstart Hno.
    assert (is_special_arg key = true) as Hs.
    { unfold is_special_arg. apply andb_true_iff. split.
      - by apply startswith_spec.
      - apply negb_true_iff. destruct (has_dunder key) eqn:Hd; [|done].
        apply has_dunder_spec in Hd as (l & r & Heq). by destruct (Hno l r). }
    unfold data. cbn [unquote_plus with_builder].
    destruct (db !! _) as [rel|]; [|done].
    pose proof (other_args_not_special args key Hs) as Hother.
    destruct (partition_args args) as [special_args other_args]. simpl in Hother.
    cbn [build_where_clauses with_builder].
    destruct (decide (other_args = ∅)); [done|].
    by rewrite (Hagree other_args Hother).
Qed.

Lemma C6_witness :
  (partition_args {[ "_next" := ("1,2", []); "_a__exact" := ("x", []);
                     "b" := ("y", ["z"]) ]}).1 !! "_next" = Some "1,2"
  ∧ (partition_args {[ "_next" := ("1,2", []); "_a__exact" := ("x", []);
                       "b" := ("y", ["z"]) ]}).2 !! "_next" = None.
Proof.
  refine (proj1 (C6_special_args_partition
                   {[ "_next" := ("1,2", []); "_a__exact" := ("x", []);
                      "b" := ("y", ["z"]) ]} "_next") "next" eq_refl _).
  intros l r Heq.
  assert (has_dunder "_next" = true) as Hd by (apply has_dunder_spec; eauto).
  discriminate Hd.
Defined.

(** ** Table browsing *)

Lemma slice_to_length {A} (n : Z) (l : list A) : len (slice_to n l) ≤ len l.
Proof.
  unfold slice_to, len. destruct (0 <=? n); rewrite length_take; lia.
Qed.

Lemma sql_limit_length {A} (n : Z) (l : list A) : 0 ≤ n → len (sql_limit n l) ≤ n.
Proof.
  intros Hn. unfold sql_limit.
  assert ((n <? 0) = false) as -> by lia. rewrite len_take by done. lia.
Qed.

(** The engine returns no more rows than the statement's limit. *)
Lemma select_rows_length rel q params :
  0 ≤ q_limit q → len (select_rows rel q params) ≤ q_limit q.
Proof. intros Hq. unfold select_rows. by apply sql_limit_length. Qed.

Lemma execute_rows_length db ds q params truncate custom rows truncated columns :
  0 ≤ q_limit q →
  execute (table_conn db) ds q params truncate custom
  = Ok (ExecTruncated rows truncated columns) →
  len rows ≤ q_limit q.
Proof.
  intros Hq (all_rows & description & Hconn & Hprefix)%execute_Ok_inv.
  unfold table_conn in Hconn.
  destruct (db !! q_table q) as [rel|]; [|done].
  destruct (decide _); [|done]. injection Hconn as <- _.
  pose proof (select_rows_length rel q params Hq) as Hlen.
  apply prefix_length in Hprefix. simpl in Hprefix. unfold len in *. lia.
Qed.

Section TableViewFacts.
Context `{!Utils}.
Variable ds : Datasette.
Variable databases : gmap string DatabaseInfo.
Variable db : gmap string relation.

(** Only a view gets an offset: the integer its cursor parses to. *)
Lemma apply_next_offset is_view use_rowid pks next w p w' p' offset :
  apply_next is_view use_rowid pks next w p = Ok (w', p', offset) →
  match next with
  | Some s => if is_view then ∃ n, int_of_str s = Ok n ∧ offset = Some n
              else offset = None
  | None => offset = None
  end.
Proof.
  unfold apply_next. destruct next as [s|]; [|by intros [= _ _ <-]].
  destruct is_view.
  - destruct (int_of_str s) as [n|]; [|done]. simpl. intros [= _ _ <-]. eauto.
  - destruct use_rowid; [by intros [= _ _ <-]|].
    destruct (decide _); [|by intros [= _ _ <-]].
    destruct (add_pk_clauses _ _ _ _). by intros [= _ _ <-].
Qed.

(** What a successful [data] returns, and the call of [execute] it made. *)
Lemma data_Ok args name table d :
  data ds databases db args name table = Ok d →
  ∃ rel custom rows,
    db !! unquote_plus table = Some rel
    ∧ td_primary_keys d = pks_for_table rel
    ∧ td_is_view d = rel_is_view rel
    ∧ q_with_rowid (td_query d)
      = bool_decide (pks_for_table rel = []) && negb (rel_is_view rel)
    ∧ q_limit (td_query d) = page_size ds + 1
    ∧ td_query_sql d = render_sql (td_query d)
    ∧ execute (table_conn db) ds (td_query d) (td_query_params d) true custom
      = Ok (ExecTruncated rows (td_truncated d) (td_columns d))
    ∧ td_rows d = slice_to (page_size ds) rows
    ∧ td_next d = next_str (td_next_value d)
    ∧ (if len rows >? page_size ds then
         if rel_is_view rel then
           td_next_value d = Some (NextOffset (offset_of (td_query d) + page_size ds))
         else
           ∃ row, index_m2 rows = Ok row
                  ∧ td_next_value d
                    = Some (NextPath (path_from_row_pks row (td_primary_keys d)
                                        (q_with_rowid (td_query d))))
       else td_next_value d = None).
Proof.
  unfold data. destruct (db !! unquote_plus table) as [rel|]; [|done].
  destruct (partition_args args) as [special_args other_args].
  destruct (if decide (other_args = ∅) then _ else _) as [built params].
  set (use_rowid := bool_decide (pks_for_table rel = []) && negb (rel_is_view rel)).
  set (next := truthy (special_args !! "_next")).
  destruct (apply_next _ _ _ _ _ _) as [[[w p] offset]|] eqn:Hnext; [|done].
  apply apply_next_offset in Hnext. simpl.
  destruct (custom_time_limit_of _) as [custom|]; [|done]. simpl.
  match goal with |- context [execute ?c ?s ?q ?ps true custom] =>
    destruct (execute c s q ps true custom)
      as [[rows|rows truncated columns]|] eqn:Hexec end; simpl; [done| |done].
  match goal with |- (?r ≫= _) = _ → _ =>
    destruct r as [table_rows|] end; [|done]. simpl.
  destruct (next_value_of ds _ _ _ _ _) as [next_value|] eqn:Hnv; [|done]. simpl.
  intros [= <-]. exists rel, custom, rows. simpl.
  repeat (split; [done|]).
  unfold next_value_of in Hnv. destruct (len rows >? page_size ds).
  - destruct (rel_is_view rel).
    + unfold offset_of. simpl. destruct next as [s|].
      * destruct Hnext as (n & Hn & ->). rewrite Hn in Hnv. by injection Hnv as <-.
      * rewrite Hnext. by injection Hnv as <-.
    + destruct (index_m2 rows) as [row|]; [|done]. injection Hnv as <-. eauto.
  - by injection Hnv as <-.
Qed.
End TableViewFacts.

Lemma index_m2_Ok {A} (l : list A) x :
  index_m2 l = Ok x → l !! (length l - 2)%nat = Some x ∧ (2 ≤ length l)%nat.
Proof.
  unfold index_m2. destruct (l !! (length l - 2)%nat) as [y|]; [|done].
  destruct (2 <=? length l)%nat eqn:Hl; [|done].
  intros [= ->]. split; [done|]. by apply Nat.leb_le.
Qed.

Lemma index_m2_total {A} (l : list A) :
  (2 ≤ length l)%nat → ∃ x, index_m2 l = Ok x.
Proof.
  intros Hl. unfold index_m2.
  destruct (lookup_lt_is_Some_2 l (length l - 2)%nat) as [x ->]; [lia|].
  exists x. by rewrite (proj2 (Nat.leb_le _ _) Hl).
Qed.

(** A list one longer than [n] is its first [n] elements and one more. *)
Lemma take_probe {A} (n : nat) (l : list A) :
  length l = S n → ∃ probe, l = take n l ++ [probe].
Proof.
  intros Hl. pose proof (take_drop n l) as Htd.
  assert (length (drop n l) = 1%nat) as Hd by (rewrite length_drop; lia).
  destruct (drop n l) as [|probe [|??]]; try done. eauto.
Qed.

Lemma next_str_path s : s ≠ "" → next_str (Some (NextPath s)) = Some s.
Proof. by destruct s. Qed.

Lemma next_str_offset n :
  n ≠ 0 → next_str (Some (NextOffset n)) = Some (str_of_int n).
Proof. intros Hn. simpl. by assert ((n =? 0) = false) as -> by lia. Qed.

Section TableViewClaims.
Context `{!Utils}.
Variable ds : Datasette.
Variable databases : gmap string DatabaseInfo.
Variable db : gmap string relation.

(** The text of the statement ends in its limit and its offset. *)
Lemma render_sql_limit q :
  ∃ before,
    render_sql q
    = before +:+ "limit " +:+ str_of_int (q_limit q)
      +:+ match q_offset q with
          | Some n => " offset " +:+ str_of_int n
          | None => ""
          end.
Proof.
  unfold render_sql.
  exists ("select " +:+ (if q_with_rowid q then "rowid, *" else "*")
          +:+ " from " +:+ escape_sqlite_table_name (q_table q) +:+ " "
          +:+ match q_where q with
              | [] => ""
              | cs => "where " +:+ join " and " (render_clause <$> cs) +:+ " "
              end
          +:+ match q_order_by q with
              | [] => ""
              | cols => "order by " +:+ join ", " cols +:+ " "
              end).
  by rewrite !app_assoc_str.
Qed.

(** C5: the statement of a table page has limit [page_size + 1].  When
    [execute] returns more than [page_size] rows, the page is the first
    [page_size] of them, the one row after them is dropped, and
    [next_value] is the key of the last row of the page (tables, by
    primary key or rowid) or the statement's offset plus [page_size]
    (views); the ['next'] key is that value as a string unless it is empty
    or zero.  When at most [page_size] rows return, there is no next
    cursor. *)
Theorem C5_probe_row_and_next_cursor args name table d :
  0 < page_size ds →
  data ds databases db args name table = Ok d →
  q_limit (td_query d) = page_size ds + 1
  ∧ (∃ before,
       td_query_sql d
       = before +:+ "limit " +:+ str_of_int (page_size ds + 1)
         +:+ match q_offset (td_query d) with
             | Some n => " offset " +:+ str_of_int n
             | None => ""
             end)
  ∧ ∃ custom rows,
      execute (table_conn db) ds (td_query d) (td_query_params d) true custom
      = Ok (ExecTruncated rows (td_truncated d) (td_columns d))
      ∧ (page_size ds < len rows →
         ∃ last_shown probe,
           rows = td_rows d ++ [probe]
           ∧ len (td_rows d) = page_size ds
           ∧ last (td_rows d) = Some last_shown
           ∧ (td_is_view d = false →
              let path := path_from_row_pks last_shown (td_primary_keys d)
                            (q_with_rowid (td_query d)) in
              td_next_value d = Some (NextPath path)
              ∧ (path ≠ "" → td_next d = Some path))
           ∧ (td_is_view d = true →
              let n := offset_of (td_query d) + page_size ds in
              td_next_value d = Some (NextOffset n)
              ∧ (n ≠ 0 → td_next d = Some (str_of_int n))))
      ∧ (len rows ≤ page_size ds →
         td_rows d = rows ∧ td_next_value d = None ∧ td_next d = None).
Proof.
  intros Hpage Hd.
  destruct (data_Ok ds databases db args name table d Hd)
    as (rel & custom & rows & Hrel & Hpks & Hview & Hrowid & Hlimit & Hsql
        & Hexec & Hrows & Hnext & Hvalue).
  split; [done|]. split.
  { rewrite Hsql, <-Hlimit. apply render_sql_limit. }
  exists custom, rows. split; [done|].
  assert (0 ≤ q_limit (td_query d)) as Hq by lia.
  pose proof (execute_rows_length _ _ _ _ _ _ _ _ _ Hq Hexec) as Hlen.
  rewrite Hlimit in Hlen. rewrite slice_to_nonneg in Hrows by lia. split.
  - intros Hmore. assert ((len rows >? page_size ds) = true) as Hgt by lia.
    rewrite Hgt in Hvalue.
    assert (length rows = S (Z.to_nat (page_size ds) - 1) + 1)%nat as Hl
      by (unfold len in *; lia).
    destruct (take_probe (Z.to_nat (page_size ds)) rows) as [probe Hprobe];
      [lia|].
    assert (len (td_rows d) = page_size ds) as Hshown.
    { rewrite Hrows. rewrite len_take by lia. lia. }
    assert (last (td_rows d) = rows !! (length rows - 2)%nat) as Hlast.
    { rewrite last_lookup, Hrows, length_take, lookup_take_lt by lia.
      f_equal. lia. }
    destruct (lookup_lt_is_Some_2 rows (length rows - 2)%nat) as [shown Hs]; [lia|].
    exists shown, probe. rewrite Hlast, Hs, Hview.
    split; [by rewrite Hrows|]. split; [done|]. split; [done|].
    destruct (rel_is_view rel).
    + split; [done|]. intros _. simpl. split; [done|].
      intros Hn. rewrite Hnext, Hvalue. by apply next_str_offset.
    + split; [|done]. intros _. simpl.
      destruct Hvalue as (row & Hrow & Hv).
      apply index_m2_Ok in Hrow as [Hrow _].
      assert (row = shown) as -> by congruence.
      split; [done|]. intros Hpath. rewrite Hnext, Hv. by apply next_str_path.
  - intros Hfew. assert ((len rows >? page_size ds) = false) as Hgt by lia.
    rewrite Hgt in Hvalue. rewrite Hnext, Hvalue, Hrows.
    split; [|done]. apply take_ge. unfold len in *. lia.
Qed.
End TableViewClaims.

Lemma C5_witness :
  ∃ d, data (H := spec_utils) example_ds example_databases example_db ∅ "fixtures" "t"
       = Ok d
       ∧ q_limit (td_query d) = page_size example_ds + 1.
Proof.
  eexists. split; [reflexivity|].
  refine (proj1 (C5_probe_row_and_next_cursor (H := spec_utils) example_ds
                   example_databases example_db ∅ "fixtures" "t" _ _ _));
    reflexivity.
Defined.

(** ** Pagination on the example tables *)

(** C1 at the spec's example: the first page of the compound-key table is
    [(1,1), (1,2)] with next cursor ["1,2"]; the page requested with that
    cursor selects [where "a" > :p0 and "b" > :p1] with [p0 = 1], [p1 = 2]
    and is empty, although the row [(2,1)] follows [(1,2)]. *)
Lemma C1_compound_cursor_skips_rows :
  ∃ page1 page2,
    data (H := spec_utils) example_ds example_databases example_db
      ∅ "fixtures" "t" = Ok page1
    ∧ td_rows page1 = [[("a", VInt 1); ("b", VInt 1)]; [("a", VInt 1); ("b", VInt 2)]]
    ∧ td_next page1 = Some "1,2"
    ∧ data (H := spec_utils) example_ds example_databases example_db
        (next_args "1,2") "fixtures" "t" = Ok page2
    ∧ td_query_sql page2
      = "select * from t where " +:+ dquote +:+ "a" +:+ dquote +:+ " > :p0 and "
        +:+ dquote +:+ "b" +:+ dquote +:+ " > :p1 order by a, b limit 3"
    ∧ td_query_params page2 !! "p0" = Some "1"
    ∧ td_query_params page2 !! "p1" = Some "2"
    ∧ td_rows page2 = []
    ∧ td_next page2 = None.
Proof.
  eexists _, _. split; [reflexivity|]. split; [reflexivity|]. split; [reflexivity|].
  split; [reflexivity|]. split; [reflexivity|]. repeat split; reflexivity.
Qed.

(** The single-key and the rowid orderings of the same rows page through
    without loss: the second page holds the row after the cursor. *)
Lemma single_key_cursor_continues :
  ∃ page1 page2,
    data (H := spec_utils) example_ds example_databases example_db
      ∅ "fixtures" "s" = Ok page1
    ∧ td_rows page1 = [[("id", VInt 10); ("b", VInt 1)]; [("id", VInt 20); ("b", VInt 2)]]
    ∧ td_next page1 = Some "20"
    ∧ data (H := spec_utils) example_ds example_databases example_db
        (next_args "20") "fixtures" "s" = Ok page2
    ∧ td_rows page2 = [[("id", VInt 30); ("b", VInt 1)]]
    ∧ td_next page2 = None.
Proof. eexists _, _. repeat split; reflexivity. Qed.

Lemma rowid_cursor_continues :
  ∃ page1 page2,
    data (H := spec_utils) example_ds example_databases example_db
      ∅ "fixtures" "r" = Ok page1
    ∧ td_next page1 = Some "2"
    ∧ data (H := spec_utils) example_ds example_databases example_db
        (next_args "2") "fixtures" "r" = Ok page2
    ∧ td_rows page2 = [[("rowid", VInt 3); ("a", VInt 2); ("b", VInt 1)]]
    ∧ td_next page2 = None.
Proof. eexists _, _. repeat split; reflexivity. Qed.

(** * Further properties of the code *)

(** ** Name resolution: the redirect is final *)

Lemma resolve_db_name_Ok databases db_name kw name expected redirect :
  resolve_db_name databases db_name kw = Ok (name, expected, redirect) →
  ∃ info, databases !! name = Some info ∧ expected = str_take 7 (db_hash info).
Proof.
  destruct (reads_as_total databases db_name) as (n & h & Hr).
  rewrite (resolve_db_name_reads _ _ _ _ _ Hr). unfold resolved.
  destruct (databases !! n) as [info|] eqn:Hn; [|done].
  intros [= <- <- _]. eauto.
Qed.

(** A path segment made of a resolved name and its current hash prefix
    resolves to the same name and prefix without a further redirect; in
    particular the target of a redirect does not redirect again.  (A hex
    digest holds no hyphen.) *)
Theorem resolve_db_name_redirect_final databases db_name kw kw' name expected redirect :
  resolve_db_name databases db_name kw = Ok (name, expected, redirect) →
  str_in hyphen expected = false →
  resolve_db_name databases (name +:+ "-" +:+ expected) kw'
  = Ok (name, expected, None).
Proof.
  intros (info & Hinfo & ->)%resolve_db_name_Ok Hhex.
  rewrite (resolve_db_name_reads _ _ kw' name (Some (str_take 7 (db_hash info)))).
  - unfold resolved. rewrite Hinfo. simpl. by rewrite decide_True.
  - constructor; [done|eauto].
Qed.

Lemma resolve_db_name_redirect_final_witness :
  resolve_db_name example_databases "my-db-fedcba9" example_kw
  = Ok ("my-db", "fedcba9", None).
Proof.
  apply (resolve_db_name_redirect_final example_databases "my-db" example_kw
           example_kw "my-db" "fedcba9" (Some "/my-db-fedcba9/t/1,2.json"));
    reflexivity.
Defined.

(** ** The registry is computed once *)

(** After a call of [inspect()] that returned a mapping, a further call
    returns the same mapping and leaves the object as it is; when the
    mapping is not empty the further call does not look at the files at
    all (it returns the mapping whatever the file system holds by then). *)
Theorem inspect_is_cached stem path_str read_database ds m :
  (inspect stem path_str read_database ds).1 = Ok m →
  let ds' := (inspect stem path_str read_database ds).2 in
  inspect stem path_str read_database ds' = (Ok m, ds')
  ∧ (m ≠ ∅ → ∀ stem' path_str' read_database',
       inspect stem' path_str' read_database' ds' = (Ok m, ds')).
Proof.
  unfold inspect. destruct (inspect_unset ds) eqn:Hunset.
  - destruct (inspect_files stem path_str read_database (files ds) ∅) as [r m'] eqn:Hfiles.
    destruct r as [[]|e]; [|done]. cbn [fst snd mbind result_bind].
    intros [= <-]. cbv zeta.
    destruct (decide (m' = ∅)) as [->|Hne].
    + split; [|done].
      assert (inspect_unset (set_inspect ds ∅) = true) as ->.
      { unfold inspect_unset. simpl. by rewrite bool_decide_eq_true_2. }
      change (files (set_inspect ds ∅)) with (files ds). by rewrite Hfiles.
    + assert (inspect_unset (set_inspect ds m') = false) as Hset.
      { unfold inspect_unset. simpl. by rewrite bool_decide_eq_false_2. }
      rewrite Hset. split; [done|]. intros _ stem' path_str' read'. done.
  - cbn [fst snd]. intros [= <-]. cbv zeta. rewrite Hunset. split; [done|].
    intros _ stem' path_str' read'. done.
Qed.

Lemma inspect_is_cached_witness :
  ∃ m, (inspect posix_stem posix_path_str empty_database (fresh_ds ["a/x.db"; "y.db"])).1 = Ok m
       ∧ inspect posix_stem posix_path_str empty_database
           (inspect posix_stem posix_path_str empty_database (fresh_ds ["a/x.db"; "y.db"])).2
         = (Ok m, (inspect posix_stem posix_path_str empty_database (fresh_ds ["a/x.db"; "y.db"])).2).
Proof.
  eexists. split; [reflexivity|].
  refine (proj1 (inspect_is_cached posix_stem posix_path_str empty_database
                   (fresh_ds ["a/x.db"; "y.db"]) _ _)).
  reflexivity.
Defined.

(** ** The executor returns a prefix of the result set *)

(** Whatever the limits, a successful [execute] returns the column names
    of the statement and an initial segment of its rows, in order; without
    [truncate], or with [max_returned_rows] 0, it returns all of them. *)
Theorem execute_returns_prefix {Sql}
    (conn : Z → Sql → gmap string string → cursor_result)
    ds sql params truncate custom all_rows description :
  conn (time_limit_ms ds custom) sql params = CursorRows all_rows description →
  ∃ r, execute conn ds sql params truncate custom = Ok r
       ∧ result_rows r `prefix_of` all_rows
       ∧ (truncate = false → r = ExecRows all_rows)
       ∧ (max_returned_rows ds = 0 → truncate = true →
          r = ExecTruncated all_rows false description).
Proof.
  intros Hconn. rewrite execute_unfold, Hconn.
  destruct truncate.
  - rewrite andb_true_r. destruct (max_returned_rows ds =? 0) eqn:Hmax; simpl.
    + eexists. split; [done|]. split; [done|]. split; [done|]. done.
    + eexists. split; [done|]. simpl. split; [|split; [done|lia]].
      etrans; [apply slice_to_prefix|apply fetchmany_prefix].
  - rewrite andb_false_r. eexists. split; [done|]. simpl. done.
Qed.

Lemma execute_returns_prefix_witness :
  ∃ r, execute three_rows_conn small_ds "select n from t" ∅ true None = Ok r
       ∧ result_rows r `prefix_of` three_rows.
Proof.
  destruct (execute_returns_prefix three_rows_conn small_ds "select n from t" ∅
              true None three_rows ["n"] eq_refl) as (r & Hr & Hp & _).
  exists r. split; [exact Hr|exact Hp].
Defined.

(** ** Special and other arguments: a partition *)

(** [special_args] and [other_args] share no key, and together they hold
    each key of the request with the first of its values. *)
Theorem partition_args_complete args :
  (partition_args args).1 ##ₘ (partition_args args).2
  ∧ (partition_args args).1 ∪ (partition_args args).2 = fst <$> args
  ∧ (∀ key, is_Some ((partition_args args).1 !! key) → is_special_arg key = true)
  ∧ (∀ key, is_Some ((partition_args args).2 !! key) → is_special_arg key = false).
Proof.
  split; [|split; [|split]].
  - apply map_disjoint_alt. intros key.
    destruct (partition_args_lookup args key) as [Hsp Hot].
    destruct (is_special_arg key); [right|left]; done.
  - apply map_eq. intros key. rewrite lookup_union, lookup_fmap.
    destruct (partition_args_lookup args key) as [-> ->].
    destruct (is_special_arg key); by destruct (args !! key).
  - intros key. rewrite (proj1 (partition_args_lookup args key)).
    destruct (is_special_arg key); [done|]. by intros [? ?].
  - intros key. rewrite (proj2 (partition_args_lookup args key)).
    destruct (is_special_arg key); [|done]. by intros [? ?].
Qed.

(** ** [int(str(n))] *)

Lemma str_forall_impl (P Q : ascii → bool) s :
  (∀ c, P c = true → Q c = true) → str_forall P s = true → str_forall Q s = true.
Proof.
  intros HPQ. induction s as [|a s IH]; [done|]. simpl.
  intros [Ha Hs]%andb_true_iff. apply andb_true_iff. auto.
Qed.

Lemma str_forall_rev_app P s t :
  str_forall P (String.rev_app s t) = str_forall P s && str_forall P t.
Proof.
  revert t. induction s as [|a s IH]; intros t; [done|]. simpl.
  rewrite IH. simpl. destruct (P a), (str_forall P s); done.
Qed.

Lemma rev_app_rev_app s t u :
  String.rev_app (String.rev_app s t) u = String.rev_app t (s +:+ u).
Proof.
  revert t u. induction s as [|a s IH]; intros t u; [done|]. simpl. by rewrite IH.
Qed.

Lemma rev_involutive s : String.rev (String.rev s) = s.
Proof. unfold String.rev. rewrite rev_app_rev_app. simpl. apply app_empty_r. Qed.

Lemma lstrip_id s : str_forall not_space s = true → lstrip s = s.
Proof.
  destruct s as [|a s]; [done|]. simpl. unfold not_space.
  by destruct (py_isspace a).
Qed.

(** A string without white space is its own [strip()]. *)
Lemma strip_id s : str_forall not_space s = true → strip s = s.
Proof.
  intros Hs. unfold strip. rewrite (lstrip_id s Hs), lstrip_id.
  - apply rev_involutive.
  - unfold String.rev. rewrite str_forall_rev_app, Hs. done.
Qed.

Lemma is_nat_pretty_N_char n :
  (n < 10)%N → Ascii.is_nat (pretty_N_char n) = Some (N.to_nat n).
Proof.
  intros Hn.
  assert (n = 0 ∨ n = 1 ∨ n = 2 ∨ n = 3 ∨ n = 4 ∨ n = 5 ∨ n = 6 ∨ n = 7
          ∨ n = 8 ∨ n = 9)%N as Hcases by lia.
  repeat (destruct Hcases as [->|Hcases]; [done|]). by subst.
Qed.

Lemma digits_value_pretty_N_go x s :
  digits_value 0 (pretty_N_go x s) = digits_value (Z.of_N x) s.
Proof.
  revert s. induction (N.lt_wf_0 x) as [x _ IH]; intros s.
  assert (x = 0 ∨ 0 < x)%N as [->|Hpos] by lia; [done|].
  rewrite pretty_N_go_step by done. rewrite IH by (by apply N.div_lt).
  simpl. rewrite is_nat_pretty_N_char by (by apply N.mod_lt).
  f_equal. pose proof (N.div_mod x 10 ltac:(done)). lia.
Qed.

Lemma str_forall_pretty_N_go x s :
  str_forall is_digit s = true → str_forall is_digit (pretty_N_go x s) = true.
Proof.
  revert s. induction (N.lt_wf_0 x) as [x _ IH]; intros s Hs.
  assert (x = 0 ∨ 0 < x)%N as [->|Hpos] by lia; [done|].
  rewrite pretty_N_go_step by done. apply IH; [by apply N.div_lt|].
  simpl. rewrite Hs, andb_true_r. unfold is_digit.
  by rewrite is_nat_pretty_N_char by (by apply N.mod_lt).
Qed.

Lemma is_digit_not_space c : is_digit c = true → not_space c = true.
Proof. destruct c as [[] [] [] [] [] [] [] []]; done. Qed.

(** The digits of a positive number parse back to it. *)
Lemma unsigned_value_pretty p :
  str_forall is_digit (pretty (N.pos p)) = true
  ∧ unsigned_value (pretty (N.pos p)) = Some (Z.pos p).
Proof.
  unfold pretty, pretty_N. rewrite decide_False by done. split.
  - by apply str_forall_pretty_N_go.
  - pose proof (digits_value_pretty_N_go (N.pos p) "") as Hd. simpl in Hd.
    pose proof (str_forall_pretty_N_go (N.pos p) "" eq_refl) as Hdigits.
    unfold unsigned_value. destruct (pretty_N_go (N.pos p) "") as [|a s] eqn:E; [done|].
    apply andb_true_iff in Hdigits as [Ha _]. unfold is_digit in Ha.
    destruct (Ascii.is_nat a); [exact Hd|done].
Qed.

Lemma int_of_str_digits s z :
  str_forall is_digit s = true → unsigned_value s = Some z → int_of_str s = Ok z.
Proof.
  intros Hd Hv. unfold int_of_str.
  rewrite strip_id by (eapply str_forall_impl; [apply is_digit_not_space|done]).
  destruct s as [|c s]; [done|].
  apply andb_true_iff in Hd as [Hc _].
  destruct c as [[] [] [] [] [] [] [] []]; try done; by rewrite Hv.
Qed.

(** [int(str(n)) == n]. *)
Lemma int_of_str_of_int z : int_of_str (str_of_int z) = Ok z.
Proof.
  unfold str_of_int, pretty, pretty_Z. destruct z as [|p|p]; [done| |].
  - destruct (unsigned_value_pretty p). by apply int_of_str_digits.
  - destruct (unsigned_value_pretty p) as [Hd Hv].
    change (pretty p) with (pretty (N.pos p)).
    unfold int_of_str. rewrite strip_id.
    + rewrite app_cons, app_empty_l. by rewrite Hv.
    + rewrite app_cons, app_empty_l. simpl.
      eapply str_forall_impl; [apply is_digit_not_space|done].
Qed.

(** ** Following the cursor of a view *)

Lemma partition_args_insert_special args key v :
  is_special_arg key = true →
  partition_args (<[key := v]> args)
  = (<[key := v.1]> (partition_args args).1, (partition_args args).2).
Proof.
  intros Hs. apply injective_projections; simpl; apply map_eq; intros k.
  - rewrite (proj1 (partition_args_lookup _ k)).
    destruct (decide (key = k)) as [<-|Hne].
    + by rewrite Hs, !lookup_insert_eq.
    + rewrite !lookup_insert_ne by done.
      by rewrite (proj1 (partition_args_lookup _ k)).
  - rewrite !(proj2 (partition_args_lookup _ k)).
    destruct (decide (key = k)) as [<-|Hne]; [by rewrite Hs|].
    by rewrite lookup_insert_ne.
Qed.

Lemma built_clauses_no_param (built : list built_clause) :
  (Built <$> built) ≫= clause_param = [].
Proof. induction built as [|b built IH]; [done|]. simpl. exact IH. Qed.

(** On a statement whose parameters are all bound the engine returns rows. *)
Lemma table_conn_rows db limit_ms q params rel :
  db !! q_table q = Some rel →
  Forall (λ p, is_Some (params !! p)) (q_where q ≫= clause_param) →
  table_conn db limit_ms q params
  = CursorRows (select_rows rel q params)
      (if q_with_rowid q then "rowid" :: rel_columns rel else rel_columns rel).
Proof. intros Hrel Hb. unfold table_conn. rewrite Hrel. by rewrite decide_True. Qed.

Lemma execute_truncate_total {Sql}
    (conn : Z → Sql → gmap string string → cursor_result)
    ds sql params custom all_rows description :
  conn (time_limit_ms ds custom) sql params = CursorRows all_rows description →
  ∃ rows truncated,
    execute conn ds sql params true custom = Ok (ExecTruncated rows truncated description).
Proof.
  intros Hconn. rewrite execute_unfold, Hconn.
  destruct (negb (max_returned_rows ds =? 0) && true); eauto.
Qed.

Lemma custom_time_limit_of_insert_next (args : gmap string (string * list string)) v :
  custom_time_limit_of (fst <$> <["_next" := v]> args)
  = custom_time_limit_of (fst <$> args).
Proof.
  unfold custom_time_limit_of. by rewrite !lookup_fmap, lookup_insert_ne.
Qed.

Section ViewCursor.
Context `{!Utils}.
Variable ds : Datasette.
Variable databases : gmap string DatabaseInfo.
Variable db : gmap string relation.

(** When a page of a view comes with a ['next'] cursor, the request with
    [_next] set to that cursor succeeds, and its statement has the same
    where clauses and parameters and starts [page_size] rows further. *)
Theorem view_next_continues args name table d c rest :
  data ds databases db args name table = Ok d →
  td_is_view d = true →
  td_next d = Some c →
  ∃ d', data ds databases db (<["_next" := (c, rest)]> args) name table = Ok d'
        ∧ q_offset (td_query d') = Some (offset_of (td_query d) + page_size ds)
        ∧ q_where (td_query d') = q_where (td_query d)
        ∧ td_query_params d' = td_query_params d.
Proof.
  intros Hd Hview Hnext.
  destruct (data_Ok ds databases db args name table d Hd)
    as (rel & custom & rows & Hrel & _ & Hview' & _ & _ & _ & _ & _ & Hnext' & Hvalue).
  rewrite Hview in Hview'. rewrite <-Hview' in Hvalue.
  assert (c = str_of_int (offset_of (td_query d) + page_size ds)
          ∧ offset_of (td_query d) + page_size ds ≠ 0) as [Hc Hnz].
  { rewrite Hnext' in Hnext. destruct (len rows >? page_size ds).
    - rewrite Hvalue in Hnext. simpl in Hnext.
      destruct (offset_of (td_query d) + page_size ds =? 0) eqn:E; [done|].
      injection Hnext as <-. split; [done|lia].
    - by rewrite Hvalue in Hnext. }
  assert (∃ a c', c = String a c') as (a & c' & Hcons).
  { destruct c as [|a c']; [|eauto].
    pose proof (int_of_str_of_int (offset_of (td_query d) + page_size ds)) as Hp.
    by rewrite <-Hc in Hp. }
  pose proof (int_of_str_of_int (offset_of (td_query d) + page_size ds)) as Hparse.
  rewrite <-Hc in Hparse. clear Hnext Hnext' Hvalue Hc Hnz Hview.
  remember (offset_of (td_query d) + page_size ds) as n eqn:Hn.
  revert Hd Hn. unfold data. rewrite Hrel, <-Hview'.
  rewrite partition_args_insert_special by done.
  destruct (partition_args args) as [special_args other_args]. cbn [fst snd].
  destruct (if decide (other_args = ∅) then _ else _) as [built params].
  rewrite lookup_insert_eq, custom_time_limit_of_insert_next.
  replace (truthy (Some c)) with (Some c) by (by rewrite Hcons).
  unfold apply_next. rewrite Hparse.
  assert (∀ offset custom,
            ∃ rows1 truncated1 columns1,
              execute (table_conn db) ds
                {| q_with_rowid := bool_decide (pks_for_table rel = []) && negb true;
                   q_table := unquote_plus table; q_where := Built <$> built;
                   q_order_by := match join ", " [] with "" | _ => [] end;
                   q_limit := page_size ds + 1; q_offset := offset |}
                params true custom
              = Ok (ExecTruncated rows1 truncated1 columns1)) as Hexec.
  { intros offset custom0.
    edestruct (execute_truncate_total (table_conn db) ds) as (rows1 & t1 & He);
      [|by eauto].
    apply table_conn_rows; [exact Hrel|]. simpl.
    rewrite built_clauses_no_param. constructor. }
  assert (∀ (first : option Z) d0,
            (custom_time_limit_of (fst <$> args)
             ≫= λ custom_time_limit : option Z,
                  execute (table_conn db) ds
                    {| q_with_rowid :=
                         bool_decide (pks_for_table rel = []) && negb true;
                       q_table := unquote_plus table; q_where := Built <$> built;
                       q_order_by := match join ", " [] with "" | _ => [] end;
                       q_limit := page_size ds + 1; q_offset := first |}
                    params true custom_time_limit
                  ≫= λ r, d0 r) = Ok d →
            ∃ custom', custom_time_limit_of (fst <$> args) = Ok custom') as Hcustom.
  { intros first d0. destruct (custom_time_limit_of _) as [custom'|]; [eauto|done]. }
  destruct (truthy (special_args !! "_next")) as [s|];
    [destruct (int_of_str s) as [n0|] eqn:Hs; [|done]|];
    cbn [mbind result_bind]; intros Hd;
    destruct (Hcustom _ _ Hd) as [custom' Hcu]; revert Hd; rewrite Hcu;
    cbn [mbind result_bind];
    (destruct (execute (table_conn db) ds _ params true custom')
       as [[?|rows0 tr0 cols0]|] eqn:He0; [done| |done]);
    cbn [mbind result_bind];
    (destruct (next_value_of _ _ _ _ _ _) as [nv|]; [|done]);
    cbn [mbind result_bind]; intros [= <-] Hn; cbn in Hn;
    destruct (Hexec (Some n) custom') as (rows1 & t1 & c1 & He1);
    rewrite He1; cbn [mbind result_bind]; unfold next_value_of; rewrite Hparse;
    destruct (len rows1 >? page_size ds); cbn [mbind result_bind];
    eexists; (split; [reflexivity|]); cbn; repeat split; f_equal; lia.
Qed.
End ViewCursor.

Lemma view_next_continues_witness :
  ∃ d d',
    data (H := spec_utils) example_ds example_databases example_db ∅ "fixtures" "v" = Ok d
    ∧ data (H := spec_utils) example_ds example_databases example_db
        (<["_next" := ("2", [])]> ∅) "fixtures" "v" = Ok d'
    ∧ q_offset (td_query d') = Some (offset_of (td_query d) + page_size example_ds).
Proof.
  eassert (data (H := spec_utils) example_ds example_databases example_db
             ∅ "fixtures" "v" = Ok _) as Hd by reflexivity.
  eexists.
  edestruct (view_next_continues (H := spec_utils) example_ds example_databases
               example_db ∅ "fixtures" "v" _ "2" [] Hd eq_refl eq_refl)
    as (d' & Hd' & Hoff & _).
  exists d'. split; [exact Hd|]. split; [exact Hd'|exact Hoff].
Defined.

(** ** What the scan for named parameters finds *)

Lemma str_forall_snoc P s a :
  str_forall P (s +:+ String a "") = str_forall P s && P a.
Proof.
  induction s as [|b s IH].
  - simpl. by rewrite andb_true_r.
  - change (str_forall P (String b s +:+ String a ""))
      with (P b && str_forall P (s +:+ String a "")).
    rewrite IH. simpl. by rewrite andb_assoc.
Qed.

Lemma app_snoc_cons s a t : (s +:+ String a "") +:+ t = s +:+ String a t.
Proof. by rewrite app_assoc_str. Qed.

Lemma emit_elem p cur : p ∈ emit cur → cur = Some p ∧ p ≠ "".
Proof.
  destruct cur as [[|a g]|]; simpl; try by intros ?%elem_of_nil.
  intros ->%list_elem_of_singleton. done.
Qed.

(** The scan, from a state [cur] reached after reading [pre]: every group
    it yields is a non-empty run of class characters that stands in the
    text right after a colon and is not followed by a class character. *)
Lemma findall_from_sound in_class cur sql pre p :
  match cur with
  | Some g => str_forall in_class g = true ∧ ∃ l, pre = l +:+ ":" +:+ g
  | None => True
  end →
  p ∈ findall_from in_class cur sql →
  p ≠ "" ∧ str_forall in_class p = true
  ∧ ∃ l r, pre +:+ sql = l +:+ ":" +:+ p +:+ r
           ∧ match r with String c _ => in_class c = false | "" => True end.
Proof.
  revert cur pre. induction sql as [|a sql IH]; intros cur pre Hcur; simpl.
  - intros [-> Hne]%emit_elem. destruct Hcur as [Hall [l ->]].
    split; [done|]. split; [done|]. exists l, "".
    by rewrite !app_empty_r.
  - assert (p ∈ findall_from in_class (reopen a) sql →
            p ≠ "" ∧ str_forall in_class p = true
            ∧ ∃ l r, pre +:+ String a sql = l +:+ ":" +:+ p +:+ r
                     ∧ match r with String c _ => in_class c = false | "" => True end)
      as Hreopen.
    { intros Hp. rewrite <-app_snoc_cons.
      apply (IH (reopen a) (pre +:+ String a "")); [|done].
      unfold reopen. destruct (decide (a = colon)) as [->|]; [|done].
      split; [done|]. exists pre. by rewrite app_empty_r. }
    destruct cur as [g|]; [|done].
    destruct Hcur as [Hall [l ->]].
    destruct (in_class a) eqn:Ha.
    + intros Hp. rewrite <-app_snoc_cons.
      apply (IH (Some (g +:+ String a "")) ((l +:+ ":" +:+ g) +:+ String a ""));
        [|done].
      split; [by rewrite str_forall_snoc, Hall, Ha|].
      exists l. by rewrite !app_assoc_str.
    + intros [Hp|Hp]%elem_of_app; [|by apply Hreopen].
      apply emit_elem in Hp as [[= ->] Hne].
      split; [done|]. split; [done|]. exists l, (String a sql).
      split; [by rewrite !app_assoc_str|done].
Qed.

(** Each name [re_named_parameter.findall(sql)] returns is non-empty, is
    made of characters of the class [[a-zA-Z0-0_]] only, and stands in
    [sql] right after a colon, with no character of the class after it. *)
Theorem findall_names_occur sql p :
  p ∈ re_named_parameter_findall sql →
  p ≠ "" ∧ str_forall named_parameter_char p = true
  ∧ ∃ l r, sql = l +:+ ":" +:+ p +:+ r
           ∧ match r with
             | String c _ => named_parameter_char c = false
             | "" => True
             end.
Proof.
  intros Hp. by apply (findall_from_sound named_parameter_char None sql "" p).
Qed.

Lemma findall_names_occur_witness :
  ∃ l r, "select * from t where a = :name and b = :p1"
         = l +:+ ":" +:+ "name" +:+ r.
Proof.
  destruct (findall_names_occur "select * from t where a = :name and b = :p1" "name")
    as (_ & _ & l & r & Heq & _).
  - vm_compute. left.
  - exists l, r. exact Heq.
Defined.

(** ** Custom SQL: parameters and outcomes *)

Section CustomSqlOutcomes.
Variable validate_sql_select : string → result unit.
Variable conn : Z → string → gmap string string → cursor_result.
Variable ds : Datasette.

(** The parameters a successful [custom_sql] executed the statement with
    are the request's arguments other than [sql], unchanged, and the empty
    string for each placeholder found in the statement that the request
    does not supply; nothing else is bound. *)
Theorem custom_sql_params raw_args name d :
  custom_sql validate_sql_select conn ds raw_args name = Ok d →
  ∃ sql, raw_args !! "sql" = Some sql
         ∧ (∀ k v, k ≠ "sql" → raw_args !! k = Some v →
              cs_query_params d !! k = Some v)
         ∧ (∀ k, delete "sql" raw_args !! k = None →
              cs_query_params d !! k
              = if decide (k ∈ re_named_parameter_findall sql) then Some "" else None).
Proof.
  intros (sql & custom & Hsql & _ & Hparams & _)%custom_sql_Ok.
  exists sql. split; [done|]. rewrite Hparams. split.
  - intros k v Hne Hk. rewrite bind_missing_lookup, lookup_delete_ne by done.
    by rewrite Hk.
  - intros k Hk. by rewrite bind_missing_lookup, Hk.
Qed.

(** [custom_sql] raises before it executes anything when the request has
    no [sql], when [validate_sql_select] rejects the statement, or when
    [_sql_time_limit_ms] is not an integer literal; in every other case its
    outcome is that of the statement: a result when the connection yields
    rows, and the exception of [sqlite3], whatever its class, when
    [cursor.execute] raises one. *)
Theorem custom_sql_outcomes raw_args name :
  match raw_args !! "sql" with
  | None =>
      custom_sql validate_sql_select conn ds raw_args name = Raise (KeyError "sql")
  | Some sql =>
      match validate_sql_select sql with
      | Raise e => custom_sql validate_sql_select conn ds raw_args name = Raise e
      | Ok _ =>
          let params :=
            bind_missing (delete "sql" raw_args) (re_named_parameter_findall sql) in
          match custom_time_limit_of params with
          | Raise e => custom_sql validate_sql_select conn ds raw_args name = Raise e
          | Ok custom =>
              match conn (time_limit_ms ds custom) sql params with
              | CursorError e =>
                  custom_sql validate_sql_select conn ds raw_args name = Raise e
              | CursorRows all_rows description =>
                  ∃ d, custom_sql validate_sql_select conn ds raw_args name = Ok d
                       ∧ cs_columns d = description
                       ∧ cs_rows d `prefix_of` all_rows
                       ∧ cs_query_sql d = sql
              end
          end
      end
  end.
Proof.
  unfold custom_sql. destruct (raw_args !! "sql") as [sql|]; [|done].
  destruct (validate_sql_select sql) as [[]|e]; [|done]. cbn [mbind result_bind].
  destruct (custom_time_limit_of _) as [custom|e]; [|done]. cbn [mbind result_bind].
  destruct (conn _ sql _) as [e|all_rows description] eqn:Hconn.
  - rewrite execute_unfold. by rewrite Hconn.
  - destruct (execute_rows_prefix conn ds sql _ true custom all_rows description Hconn)
      as (r & Hr & Hprefix).
    destruct (execute_truncate_total conn ds sql _ custom all_rows description Hconn)
      as (rows & truncated & Hr').
    rewrite Hr' in Hr. injection Hr as <-. rewrite Hr'. cbn [mbind result_bind].
    eexists. split; [done|]. done.
Qed.
End CustomSqlOutcomes.

Lemma custom_sql_params_witness :
  ∃ d, custom_sql accept_all three_rows_conn example_ds
         {[ "sql" := "select n from t where n > :low"; "low" := "1" ]} "fixtures" = Ok d
       ∧ cs_query_params d !! "low" = Some "1".
Proof.
  eassert (custom_sql accept_all three_rows_conn example_ds
             {[ "sql" := "select n from t where n > :low"; "low" := "1" ]}
             "fixtures" = Ok _) as Hd by reflexivity.
  eexists. split; [exact Hd|].
  destruct (custom_sql_params accept_all three_rows_conn example_ds _ _ _ Hd)
    as (sql & _ & Hkeep & _).
  apply (Hkeep "low" "1"); [discriminate|reflexivity].
Defined.

(** ** A page is an initial segment of what its statement selects *)

Section PageFacts.
Context `{!Utils}.
Variable ds : Datasette.
Variable databases : gmap string DatabaseInfo.
Variable db : gmap string relation.

(** The rows of a page are the first rows, in order, of the rows its
    statement selects from the relation, and there are at most [page_size]
    of them. *)
Theorem data_page_is_prefix args name table d :
  0 ≤ page_size ds →
  data ds databases db args name table = Ok d →
  len (td_rows d) ≤ page_size ds
  ∧ ∃ rel, db !! td_table d = Some rel
           ∧ td_rows d
             `prefix_of` select_rows rel (td_query d) (td_query_params d).
Proof.
  intros Hps Hd.
  assert (td_table d = unquote_plus table ∧ q_table (td_query d) = unquote_plus table)
    as [Htable Hq].
  { revert Hd. unfold data. destruct (db !! unquote_plus table) as [rel|]; [|done].
    destruct (partition_args args) as [sp ot].
    destruct (if decide (ot = ∅) then _ else _) as [built params].
    destruct (apply_next _ _ _ _ _ _) as [[[w p] offset]|]; [|done].
    cbn [mbind result_bind].
    destruct (custom_time_limit_of _) as [custom|]; [|done]. cbn [mbind result_bind].
    destruct (execute _ _ _ _ _ _) as [[?|rows truncated columns]|]; [done| |done].
    cbn [mbind result_bind].
    match goal with |- (?r ≫= _) = _ → _ => destruct r as [table_rows|] end; [|done].
    cbn [mbind result_bind].
    destruct (next_value_of _ _ _ _ _ _) as [nv|]; [|done].
    by intros [= <-]. }
  destruct (data_Ok ds databases db args name table d Hd)
    as (rel & custom & rows & Hrel & _ & _ & _ & _ & _ & Hexec & Hrows & _).
  split.
  - rewrite Hrows, slice_to_nonneg, len_take by done. lia.
  - exists rel. rewrite Htable. split; [done|].
    apply execute_Ok_inv in Hexec as (all_rows & description & Hconn & Hprefix).
    unfold table_conn in Hconn. rewrite Hq, Hrel in Hconn.
    destruct (decide _); [|done]. injection Hconn as <- _.
    rewrite Hrows. etrans; [apply slice_to_prefix|done].
Qed.
End PageFacts.

Lemma data_page_is_prefix_witness :
  ∃ d, data (H := spec_utils) example_ds example_databases example_db ∅ "fixtures" "r"
       = Ok d
       ∧ len (td_rows d) ≤ page_size example_ds.
Proof.
  eassert (data (H := spec_utils) example_ds example_databases example_db
             ∅ "fixtures" "r" = Ok _) as Hd by reflexivity.
  eexists. split; [exact Hd|].
  refine (proj1 (data_page_is_prefix (H := spec_utils) example_ds example_databases
                   example_db ∅ "fixtures" "r" _ _ Hd)).
  discriminate.
Defined.

(** ** Sorting, and the key columns of a table *)

Lemma insert_sorted_perm {A} (le : A → A → bool) x l :
  insert_sorted le x l ≡ₚ x :: l.
Proof.
  induction l as [|y l IH]; [done|]. simpl. destruct (le x y); [done|].
  rewrite IH. apply Permutation_swap.
Qed.

(** [sort_by] rearranges: it neither drops nor adds an element. *)
Lemma sort_by_perm {A} (le : A → A → bool) l : sort_by le l ≡ₚ l.
Proof.
  induction l as [|x l IH]; [done|]. unfold sort_by in *. simpl.
  rewrite insert_sorted_perm. by rewrite IH.
Qed.

Lemma insert_sorted_Sorted {A} (le : A → A → bool) x l :
  (∀ a b, le a b = false → le b a = true) →
  Sorted (λ a b, le a b = true) l →
  Sorted (λ a b, le a b = true) (insert_sorted le x l).
Proof.
  intros Htotal. induction l as [|y l IH]; intros Hs; simpl.
  - by repeat constructor.
  - destruct (le x y) eqn:Hxy.
    + constructor; [done|]. by constructor.
    + apply Sorted_inv in Hs as [Hs Hhd]. constructor; [by apply IH|].
      destruct l as [|z l]; simpl.
      * constructor. by apply Htotal.
      * destruct (le x z); constructor; [by apply Htotal|].
        by apply HdRel_inv in Hhd.
Qed.

(** On a total order [sort_by] yields a sorted list. *)
Lemma sort_by_Sorted {A} (le : A → A → bool) l :
  (∀ a b, le a b = false → le b a = true) →
  Sorted (λ a b, le a b = true) (sort_by le l).
Proof.
  intros Htotal. induction l as [|x l IH]; [constructor|].
  by apply insert_sorted_Sorted.
Qed.

Lemma Sorted_weaken {A} (R R' : A → A → Prop) l :
  (∀ a b, R a b → R' a b) → Sorted R l → Sorted R' l.
Proof.
  intros HR. induction 1 as [|x l Hs IH Hhd]; constructor; [done|].
  destruct Hhd; constructor; auto.
Qed.

(** [pks_for_table] returns the names of exactly the columns whose [pk]
    field is not 0, each as often as [PRAGMA table_info] lists it, in
    ascending order of that field; without such a column (a view, a table
    without a key) it returns no column. *)
Theorem pks_for_table_sorted rel :
  (∃ keyed : list (string * Z),
      pks_for_table rel = keyed.*1
      ∧ keyed ≡ₚ filter (λ r, r.2 ≠ 0) (rel_table_info rel)
      ∧ StronglySorted (λ r1 r2 : string * Z, r1.2 ≤ r2.2) keyed)
  ∧ (∀ c, c ∈ pks_for_table rel ↔ ∃ k, k ≠ 0 ∧ (c, k) ∈ rel_table_info rel)
  ∧ ((∀ c k, (c, k) ∈ rel_table_info rel → k = 0) → pks_for_table rel = []).
Proof.
  set (keyed := sort_by (λ r1 r2 : string * Z, r1.2 <=? r2.2)
                  (filter (λ r, r.2 ≠ 0) (rel_table_info rel))).
  assert (keyed ≡ₚ filter (λ r : string * Z, r.2 ≠ 0) (rel_table_info rel)) as Hperm
    by apply sort_by_perm.
  split; [|split].
  - exists keyed. split; [done|]. split; [done|].
    apply Sorted_StronglySorted; [intros a b c; lia|].
    eapply Sorted_weaken; [|apply sort_by_Sorted].
    + intros a b Hab. simpl in Hab. lia.
    + intros a b Hab. simpl in *. lia.
  - intros c. unfold pks_for_table. fold keyed. rewrite list_elem_of_fmap. split.
    + intros ([c' k] & -> & Hin). rewrite Hperm in Hin.
      apply list_elem_of_filter in Hin as [Hk Hin]. eauto.
    + intros (k & Hk & Hin). exists (c, k). split; [done|].
      rewrite Hperm. by apply list_elem_of_filter.
  - intros Hnokey. unfold pks_for_table. fold keyed.
    assert (filter (λ r : string * Z, r.2 ≠ 0) (rel_table_info rel) = []) as Hnil.
    { destruct (filter _ _) as [|[c k] l] eqn:Hf; [done|].
      assert ((c, k) ∈ filter (λ r : string * Z, r.2 ≠ 0) (rel_table_info rel))
        as [Hk Hin]%list_elem_of_filter by (rewrite Hf; left).
      by destruct Hk, (Hnokey c k). }
    subst keyed. by rewrite Hnil.
Qed.

(** ** [BaseView.get]: redirect or view *)

Section GetFacts.
Context {R : Type}.
Variable view_get : string → string → kwargs → result R.

(** For a path segment that reads as a registered name: with the current
    hash prefix [get] is the view's [view_get] on the name and that prefix;
    with any other hash, or none, it is a 302 response whose [Location] is
    [/name-prefix], the rest of the request's path and its query string,
    with a matching [Link] preload header, and the view is not run; the
    CORS header is set exactly when [cors] is. *)
Theorem get_redirects_or_views cors query_string databases db_name kw name hash info :
  reads_as databases db_name name hash →
  databases !! name = Some info →
  let expected := str_take 7 (db_hash info) in
  let location := "/" +:+ name +:+ "-" +:+ expected +:+ path_tail kw
                  +:+ match query_string with
                      | "" => ""
                      | _ => "?" +:+ query_string
                      end in
  (Some expected = hash →
   get view_get cors query_string databases db_name kw
   = (r ← view_get name expected kw; Ok (inr r)))
  ∧ (Some expected ≠ hash →
     ∃ r, get view_get cors query_string databases db_name kw = Ok (inl r)
          ∧ resp_status r = 302
          ∧ resp_headers r !! "Location" = Some location
          ∧ resp_headers r !! "Link" = Some ("<" +:+ location +:+ ">; rel=preload")
          ∧ resp_headers r !! "Access-Control-Allow-Origin"
            = if cors then Some "*" else None).
Proof.
  intros Hr Hinfo expected location. unfold get.
  rewrite (resolve_db_name_reads _ _ _ _ _ Hr). unfold resolved. rewrite Hinfo.
  fold expected. cbn [mbind result_bind]. split.
  - intros Heq. by rewrite decide_True.
  - intros Hne. rewrite decide_False by done. cbn [truthy String.append].
    eexists. split; [reflexivity|].
    assert (match query_string with
            | "" => "/" +:+ name +:+ "-" +:+ expected +:+ path_tail kw
            | String _ _ =>
                ("/" +:+ name +:+ "-" +:+ expected +:+ path_tail kw)
                +:+ "?" +:+ query_string
            end = location) as Hloc.
    { subst location. destruct query_string.
      - by rewrite !app_empty_r.
      - by rewrite ?app_assoc_str. }
    unfold redirect. change (String "/" (name +:+ "-" +:+ expected +:+ path_tail kw))
      with ("/" +:+ name +:+ "-" +:+ expected +:+ path_tail kw).
    rewrite Hloc. destruct cors; done.
Qed.
End GetFacts.

Lemma get_redirects_or_views_witness :
  ∃ r, get (λ _ _ _, Ok ()) true "_next=2" example_databases "fixtures" example_kw
       = Ok (inl r)
       ∧ resp_headers r !! "Location" = Some "/fixtures-0123456/t/1,2.json?_next=2".
Proof.
  assert (reads_as example_databases "fixtures" "fixtures" None) as Hr.
  { apply reads_bare_name. intros name hash Heq _.
    assert (str_in hyphen "fixtures" = true) as Hin
      by (rewrite Heq, str_in_app; simpl; apply orb_true_r).
    discriminate Hin. }
  destruct (get_redirects_or_views (λ _ _ _, Ok ()) true "_next=2" example_databases
              "fixtures" example_kw "fixtures" None
              {| db_hash := "0123456789abcdef"; db_file := "fixtures.db";
                 db_tables := example_tables |} Hr eq_refl) as [_ Hredirect].
  destruct Hredirect as (r & Hget & _ & Hloc & _); [discriminate|].
  exists r. split; [exact Hget|exact Hloc].
Defined.

(** ** [BaseView.view_get]: status, errors and headers *)

Section ViewGetFacts.
Context {D : Type}.
Variable columns_of : D → option (list string).
Variable rows_of : D → option (list Row).
Variable template : string.
Variable data_of : string → string → kwargs → result D.
Variables cors cache_headers : bool.
Variable metadata : gmap string string.

(** [view_get] answers 200 with the view's data and template when [data]
    returns, and 400 with the error message and the template [error.html]
    when [data] raises [sqlite3.OperationalError] or [InvalidSql]; any
    other exception of [data] leaves [view_get] as it is.  Every response,
    the error page included, carries [Cache-Control: max-age=31536000] when
    [cache_headers] is set and not otherwise; the CORS header is set on
    JSON responses only, when [cors] is. *)
Theorem view_get_response name hash kw :
  let kw' := {| kw_table := kw_table kw; kw_pk_path := kw_pk_path kw;
                kw_as_json := None; kw_as_db := kw_as_db kw |} in
  let outcome := view_get columns_of rows_of template data_of cors cache_headers
                   metadata name hash kw in
  match data_of name hash kw' with
  | Ok data =>
      ∃ r, outcome = Ok r ∧ vr_status r = 200 ∧ vr_payload r = PayloadData data
           ∧ vr_template r = template
  | Raise e =>
      match caught e with
      | Some msg =>
          ∃ r, outcome = Ok r ∧ vr_status r = 400
               ∧ vr_payload r = PayloadError msg name hash
               ∧ vr_template r = "error.html" ∧ vr_row_objects r = None
      | None => outcome = Raise e
      end
  end
  ∧ ∀ r, outcome = Ok r →
      vr_headers r !! "Cache-Control"
      = (if cache_headers then Some "max-age=31536000" else None)
      ∧ vr_headers r !! "Access-Control-Allow-Origin"
        = (if cors && vr_json r then Some "*" else None)
      ∧ (vr_json r = true ↔ ∃ a s, kw_as_json kw = Some (String a s)).
Proof.
  intros kw' outcome. subst outcome. unfold view_get. fold kw'. split.
  - destruct (data_of name hash kw') as [data|e].
    + cbn [mbind result_bind]. eexists. split; [reflexivity|]. done.
    + destruct e; cbn [caught mbind result_bind]; try done.
      * eexists. split; [reflexivity|]. simpl. by destruct (decide _).
      * eexists. split; [reflexivity|]. simpl. by destruct (decide _).
  - intros r.
    match goal with |- (?x ≫= _) = _ → _ => destruct x as [[[payload t] st]|] end;
      [|done].
    cbn [mbind result_bind]. intros [= <-]. cbn.
    assert (truthy (kw_as_json kw) = None
            ∨ ∃ a s, kw_as_json kw = Some (String a s)
                     ∧ truthy (kw_as_json kw) = Some (String a s)) as Hj.
    { destruct (kw_as_json kw) as [[|a s]|]; simpl; eauto. }
    destruct Hj as [Hj|(a & s & Hk & Hj)]; rewrite Hj; cbn.
    + split; [by destruct cache_headers|]. split.
      * destruct cache_headers, cors; done.
      * split; [done|]. intros (a & s & Hk). by rewrite Hk in Hj.
    + split; [by destruct cache_headers, cors|]. split.
      * destruct cache_headers, cors; done.
      * split; [eauto|done].
Qed.
End ViewGetFacts.

(** A statement that [validate_sql_select] rejects with [InvalidSql] gives
    the 400 error page with that message, whatever the connection would
    do with it. *)
Theorem invalid_custom_sql_is_400 validate_sql_select conn ds raw_args sql msg
    cors cache_headers metadata name hash kw :
  raw_args !! "sql" = Some sql →
  validate_sql_select sql = Raise (InvalidSql msg) →
  ∃ r, view_get cs_columns_opt cs_rows_opt "database.html"
         (λ name _ _, custom_sql validate_sql_select conn ds raw_args name)
         cors cache_headers metadata name hash kw = Ok r
       ∧ vr_status r = 400
       ∧ vr_payload r = PayloadError msg name hash
       ∧ vr_template r = "error.html".
Proof.
  intros Hsql Hinvalid.
  assert (custom_sql validate_sql_select conn ds raw_args name = Raise (InvalidSql msg))
    as Hout by (unfold custom_sql; by rewrite Hsql, Hinvalid).
  unfold view_get. rewrite Hout. cbn [mbind result_bind].
  eexists. split; [reflexivity|]. done.
Qed.

Lemma invalid_custom_sql_is_400_witness :
  ∃ r, view_get cs_columns_opt cs_rows_opt "database.html"
         (λ name _ _, custom_sql (λ _, Raise (InvalidSql "Statement must begin with SELECT"))
                        three_rows_conn example_ds {[ "sql" := "delete from t" ]} name)
         false true ∅ "fixtures" "0123456" example_kw = Ok r
       ∧ vr_status r = 400.
Proof.
  destruct (invalid_custom_sql_is_400
              (λ _, Raise (InvalidSql "Statement must begin with SELECT"))
              three_rows_conn example_ds {[ "sql" := "delete from t" ]} "delete from t"
              "Statement must begin with SELECT" false true ∅ "fixtures" "0123456"
              example_kw) as (r & Hr & Hs & _); [reflexivity|reflexivity|].
  exists r. split; [exact Hr|exact Hs].
Defined.

(** ** Row objects of [.jsono] *)

Lemma foldl_insert_lookup (kvs : list (string * value)) (acc : gmap string value) c :
  NoDup kvs.*1 →
  foldl (λ m cv, <[cv.1 := cv.2]> m) acc kvs !! c
  = match (list_to_map kvs : gmap string value) !! c with
    | Some v => Some v
    | None => acc !! c
    end.
Proof.
  revert acc. induction kvs as [|[k v] kvs IH]; intros acc Hnd; [done|].
  apply NoDup_cons in Hnd as [Hk Hnd]. cbn [foldl fst snd].
  rewrite IH by done. rewrite list_to_map_cons.
  destruct (decide (k = c)) as [->|Hne].
  - rewrite !lookup_insert_eq. by rewrite (not_elem_of_list_to_map_1 kvs c Hk).
  - by rewrite !lookup_insert_ne by done.
Qed.

(** With distinct column names and as many values, the object of a row has
    one entry per column: the value at the column's position.  (With a
    repeated column name the entry of the later column replaces that of
    the earlier one.) *)
Theorem row_object_lookup columns (row : Row) :
  NoDup columns →
  length columns = length row →
  (∀ i c v, columns !! i = Some c → row.*2 !! i = Some v →
     row_object columns row !! c = Some v)
  ∧ (∀ c, is_Some (row_object columns row !! c) ↔ c ∈ columns).
Proof.
  intros Hnd Hlen.
  assert ((zip columns row.*2).*1 = columns) as Hfst
    by (apply fst_zip; rewrite length_fmap; lia).
  assert (∀ c, row_object columns row !! c
               = (list_to_map (zip columns row.*2) : gmap string value) !! c) as Hobj.
  { intros c. unfold row_object. rewrite foldl_insert_lookup by (by rewrite Hfst).
    rewrite lookup_empty. by destruct (_ !! c). }
  split.
  - intros i c v Hc Hv. rewrite Hobj.
    apply elem_of_list_to_map; [by rewrite Hfst|].
    apply list_elem_of_lookup. exists i. apply lookup_zip_with_Some. eauto.
  - intros c. rewrite Hobj. split.
    + intros [v Hv]. apply elem_of_list_to_map_2 in Hv.
      rewrite <-Hfst. apply list_elem_of_fmap. by exists (c, v).
    + intros Hc. destruct (list_to_map _ !! c) eqn:E; [eauto|].
      apply not_elem_of_list_to_map in E. by rewrite Hfst in E.
Qed.

Lemma row_object_lookup_witness :
  row_object ["a"; "b"] [("a", VInt 1); ("b", VInt 2)] !! "b" = Some (VInt 2).
Proof.
  refine (proj1 (row_object_lookup ["a"; "b"] [("a", VInt 1); ("b", VInt 2)] _ _)
            1%nat "b" (VInt 2) _ _); try reflexivity.
  apply NoDup_cons. split; [by intros [=]%list_elem_of_singleton|].
  apply NoDup_singleton.
Defined.

(** A repeated column name keeps the value of the later column only. *)
Lemma row_object_repeated_column :
  row_object ["a"; "a"] [("a", VInt 1); ("a", VInt 2)] = {[ "a" := VInt 2 ]}.
Proof. reflexivity. Qed.

(** ** The index page *)

Lemma leb_total_false s1 s2 : String.leb s1 s2 = false → String.leb s2 s1 = true.
Proof. intros Hf. destruct (String.leb_total s1 s2) as [Ht|Ht]; congruence. Qed.

(** The index lists each registered database once, in ascending order of
    its name, with its own summary; and the [path] of an entry resolves to
    that database without a redirect (the hash being a hex digest). *)
Theorem index_databases_sorted items databases :
  Sorted (λ s1 s2, String.leb (sum_name s1) (sum_name s2) = true)
    (index_databases items databases)
  ∧ NoDup (sum_name <$> index_databases items databases)
  ∧ (∀ s, s ∈ index_databases items databases ↔
          ∃ name info, databases !! name = Some info ∧ s = summarize items name info)
  ∧ (∀ s kw, s ∈ index_databases items databases →
       str_in hyphen (str_take 7 (sum_hash s)) = false →
       resolve_db_name databases (sum_path s) kw
       = Ok (sum_name s, str_take 7 (sum_hash s), None)).
Proof.
  unfold index_databases.
  set (sorted := sort_by (λ p1 p2 : string * DatabaseInfo, String.leb p1.1 p2.1)
                   (map_to_list databases)).
  assert (sorted ≡ₚ map_to_list databases) as Hperm by apply sort_by_perm.
  assert (∀ s, s ∈ (λ p, summarize items p.1 p.2) <$> sorted ↔
               ∃ name info, databases !! name = Some info ∧ s = summarize items name info)
    as Hmem.
  { intros s. rewrite list_elem_of_fmap. split.
    - intros ([name info] & -> & Hin). rewrite Hperm in Hin.
      apply elem_of_map_to_list in Hin. eauto.
    - intros (name & info & Hin & ->). exists (name, info). split; [done|].
      rewrite Hperm. by apply elem_of_map_to_list. }
  split; [|split; [|split]].
  - apply Sorted_fmap
      with (R1 := λ p1 p2 : string * DatabaseInfo, String.leb p1.1 p2.1 = true).
    + by intros [??] [??].
    + apply sort_by_Sorted. intros a b. apply leb_total_false.
  - rewrite <-list_fmap_compose.
    assert ((sum_name ∘ (λ p : string * DatabaseInfo, summarize items p.1 p.2)) <$> sorted
            = sorted.*1) as -> by (by apply list_fmap_ext; intros ? [??]).
    rewrite Hperm. apply NoDup_fst_map_to_list.
  - done.
  - intros s kw (name & info & Hin & ->)%Hmem Hhex. simpl in *.
    rewrite (resolve_db_name_reads _ _ kw name (Some (str_take 7 (db_hash info)))).
    + unfold resolved. rewrite Hin. simpl. by rewrite decide_True.
    + constructor; [done|eauto].
Qed.

Section SummaryFacts.
Variable items : gmap string TableInfo → list (string * TableInfo).
Hypothesis items_perm : ∀ m, items m ≡ₚ map_to_list m.
Variable key : string.
Variable info : DatabaseInfo.

(** The tables shown for a database are at most five tables of it, in
    descending order of their row count, and no table left out has more
    rows than one shown; [tables_more] says whether any is left out, and
    [tables_count] counts all tables.  This holds whatever the order of
    the dictionary is. *)
Theorem summarize_top_tables :
  let s := summarize items key info in
  len (sum_tables_truncated s) ≤ 5
  ∧ StronglySorted (λ p1 p2 : string * TableInfo, count p2.2 ≤ count p1.2)
      (sum_tables_truncated s)
  ∧ (∀ t ti, (t, ti) ∈ sum_tables_truncated s → db_tables info !! t = Some ti)
  ∧ (∀ t ti t' ti', db_tables info !! t = Some ti → (t, ti) ∉ sum_tables_truncated s →
       (t', ti') ∈ sum_tables_truncated s → count ti ≤ count ti')
  ∧ NoDup (sum_tables_truncated s).*1
  ∧ sum_tables_count s = Z.of_nat (size (db_tables info))
  ∧ (sum_tables_more s = true ↔ (5 < size (db_tables info))%nat)
  ∧ (sum_tables_more s = false →
     ∀ t ti, db_tables info !! t = Some ti → (t, ti) ∈ sum_tables_truncated s).
Proof.
  intros s. subst s. unfold summarize.
  cbn [sum_tables_truncated sum_tables_count sum_tables_more].
  pose proof (items_perm (db_tables info)) as Hitems.
  set (listed := items (db_tables info)) in *.
  set (sorted := sort_by (λ p1 p2 : string * TableInfo, count p2.2 <=? count p1.2)
                   listed).
  assert (sorted ≡ₚ map_to_list (db_tables info)) as Hperm
    by (etrans; [apply sort_by_perm|done]).
  assert (StronglySorted (λ p1 p2 : string * TableInfo, count p2.2 ≤ count p1.2) sorted)
    as Hsorted.
  { apply Sorted_StronglySorted; [intros a b c; lia|].
    eapply Sorted_weaken; [|apply sort_by_Sorted].
    - intros a b Hab. simpl in Hab. lia.
    - intros a b Hab. simpl in *. lia. }
  rewrite slice_to_nonneg by done.
  rewrite <-(take_drop (Z.to_nat 5) sorted) in Hsorted.
  apply StronglySorted_app in Hsorted as (Hcross & Htake & _).
  assert (len listed = Z.of_nat (size (db_tables info))) as Hlen.
  { unfold len. by rewrite Hitems, length_map_to_list. }
  split; [rewrite len_take by done; lia|]. split; [done|]. split; [|split; [|split]].
  - intros t ti Hin. apply elem_of_map_to_list. rewrite <-Hperm.
    by eapply subseteq_take.
  - intros t ti t' ti' Ht Hnot Hin'.
    assert ((t, ti) ∈ sorted) as Hin
      by (rewrite Hperm; by apply elem_of_map_to_list).
    rewrite <-(take_drop (Z.to_nat 5) sorted) in Hin.
    apply elem_of_app in Hin as [Hin|Hin]; [done|].
    apply (Hcross (t', ti') (t, ti) Hin' Hin).
  - rewrite fmap_take. eapply sublist_NoDup; [|apply sublist_take].
    rewrite Hperm. apply NoDup_fst_map_to_list.
  - split; [done|]. split; [rewrite Hlen; lia|].
    intros Hmore t ti Ht.
    assert ((t, ti) ∈ sorted) as Hin
      by (rewrite Hperm; by apply elem_of_map_to_list).
    rewrite take_ge; [done|].
    assert (length sorted = length listed) as -> by (by rewrite Hperm, Hitems).
    unfold len in *. lia.
Qed.
End SummaryFacts.

Lemma summarize_top_tables_witness :
  len (sum_tables_truncated
         (summarize map_to_list "fixtures"
            {| db_hash := "0123456789abcdef"; db_file := "fixtures.db";
               db_tables := example_tables |})) ≤ 5.
Proof.
  refine (proj1 (summarize_top_tables map_to_list _ "fixtures"
                   {| db_hash := "0123456789abcdef"; db_file := "fixtures.db";
                      db_tables := example_tables |})).
  intros m. reflexivity.
Defined.

(** ** Row lookup *)

Lemma param_name_inj i j : param_name i = param_name j → i = j.
Proof.
  unfold param_name, str_of_int. rewrite !app_cons, !app_empty_l.
  intros [= Heq]. by apply (inj pretty).
Qed.

Lemma enumerate_from_lookup {A} (l : list A) k i :
  enumerate_from k l !! i = (λ x, (k + Z.of_nat i, x)) <$> l !! i.
Proof.
  revert k i. induction l as [|x l IH]; intros k [|i]; cbn [enumerate_from]; try done.
  - cbn. by rewrite Z.add_0_r.
  - change ((?a :: ?l') !! S i) with (l' !! i). rewrite IH.
    replace (k + 1 + Z.of_nat i) with (k + Z.of_nat (S i)) by lia. done.
Qed.

Lemma foldl_params_lookup (l : list string) k (acc : gmap string string) j :
  foldl (λ m iv, <[param_name iv.1 := iv.2]> m) acc (enumerate_from k l)
    !! param_name j
  = if decide (k ≤ j < k + len l) then l !! Z.to_nat (j - k)
    else acc !! param_name j.
Proof.
  revert k acc. induction l as [|x l IH]; intros k acc; cbn [enumerate_from foldl].
  - rewrite decide_False; [done|]. unfold len. simpl. lia.
  - rewrite IH. cbn [fst snd]. unfold len. cbn [length].
    destruct (decide (k + 1 ≤ j < k + 1 + Z.of_nat (length l))) as [Hin|Hout].
    + rewrite decide_True by lia.
      replace (Z.to_nat (j - k)) with (S (Z.to_nat (j - (k + 1)))) by lia. done.
    + destruct (decide (j = k)) as [->|Hne].
      * rewrite lookup_insert_eq, decide_True by lia.
        by replace (Z.to_nat (k - k)) with 0%nat by lia.
      * rewrite lookup_insert_ne by (intros ?%param_name_inj; done).
        rewrite decide_False by lia. done.
Qed.

(** The parameter [p{i}] is the [i]-th value of the path. *)
Lemma params_of_lookup (pk_values : list string) (i : nat) :
  RowView.params_of pk_values !! param_name (Z.of_nat i) = pk_values !! i.
Proof.
  unfold RowView.params_of. rewrite foldl_params_lookup.
  destruct (decide (0 ≤ Z.of_nat i < 0 + len pk_values)) as [Hin|Hout].
  - f_equal. lia.
  - rewrite lookup_empty. symmetry. apply lookup_ge_None. unfold len in Hout. lia.
Qed.

Lemma wheres_of_lookup (pks : list string) (i : nat) :
  RowView.wheres_of pks !! i = (λ pk, (pk, param_name (Z.of_nat i))) <$> pks !! i.
Proof.
  unfold RowView.wheres_of. rewrite list_lookup_fmap, enumerate_from_lookup.
  by destruct (pks !! i).
Qed.

Lemma enumerate_from_length {A} (l : list A) k :
  length (enumerate_from k l) = length l.
Proof.
  revert k. induction l as [|x l IH]; intros k; [done|]. cbn. by rewrite IH.
Qed.

Section RowViewFacts.
Context `{!Utils}.
Variable conn : Z → row_query → gmap string string → cursor_result.
Variable ds : Datasette.
Variable db : gmap string relation.

(** What a successful row lookup returned comes from one statement on the
    table of the request: its [i]-th clause compares the [i]-th key column
    (the rowid for a table without key) with the parameter [p{i}], which is
    bound to the [i]-th component of the path; the rows returned are a
    non-empty initial segment of the rows the connection gave for it, under
    the global time limit, and the key columns and the components of the
    path are echoed. *)
Theorem row_lookup_statement name table pk_path d :
  RowView.data conn ds db name table pk_path = Ok d →
  let q := lookup_statement db table in
  let pk_values := compound_pks_from_path pk_path in
  rd_primary_key_values d = pk_values
  ∧ rd_primary_keys d = (RowView.lookup_keys db (unquote_plus table)).2
  ∧ rd_primary_keys d ≠ []
  ∧ (∃ all_rows,
       conn (sql_time_limit_ms ds) q (RowView.params_of pk_values)
       = CursorRows all_rows (rd_columns d)
       ∧ rd_rows d `prefix_of` all_rows ∧ rd_rows d ≠ [])
  ∧ rq_table q = rd_table d
  ∧ length (rq_wheres q) = length (rd_primary_keys d)
  ∧ (∀ (i : nat) pk, rd_primary_keys d !! i = Some pk →
       rq_wheres q !! i = Some (pk, param_name (Z.of_nat i)))
  ∧ (∀ i : nat, RowView.params_of pk_values !! param_name (Z.of_nat i)
                = pk_values !! i).
Proof.
  unfold RowView.data, lookup_statement.
  destruct (RowView.lookup_keys db (unquote_plus table)) as [use_rowid keys] eqn:Hkeys.
  cbn [fst snd].
  destruct (execute _ _ _ _ _ _) as [[?|rows truncated description]|] eqn:Hexec;
    cbn [mbind result_bind]; [done| |done].
  destruct rows as [|row0 rows]; [done|]. intros [= <-]. cbn.
  split; [done|]. split; [done|]. split.
  { unfold RowView.lookup_keys in Hkeys. injection Hkeys as _ <-.
    by case_bool_decide. }
  apply execute_truncated_inv in Hexec as (all_rows & Hconn & Hprefix).
  split; [by exists all_rows|].
  split; [done|]. split.
  { unfold RowView.wheres_of. by rewrite length_fmap, enumerate_from_length. }
  split.
  - intros i pk Hpk. by rewrite wheres_of_lookup, Hpk.
  - intros i. apply params_of_lookup.
Qed.

(** The outcome of a row lookup follows what the connection does with its
    statement: an exception of [cursor.execute] is raised as it is; when
    the statement has no row, [NotFound] is raised with the components of
    the path; otherwise the lookup returns rows of the statement, at least
    one.  ([max_returned_rows] is taken not to be negative.) *)
Theorem row_lookup_outcomes name table pk_path :
  0 ≤ max_returned_rows ds →
  let pk_values := compound_pks_from_path pk_path in
  match conn (sql_time_limit_ms ds) (lookup_statement db table)
          (RowView.params_of pk_values) with
  | CursorError e => RowView.data conn ds db name table pk_path = Raise e
  | CursorRows [] _ =>
      RowView.data conn ds db name table pk_path
      = Raise (NotFound ("Record not found: " +:+ repr_list pk_values))
  | CursorRows all_rows description =>
      ∃ d, RowView.data conn ds db name table pk_path = Ok d
           ∧ rd_rows d ≠ [] ∧ rd_rows d `prefix_of` all_rows
           ∧ rd_columns d = description
  end.
Proof.
  intros Hmax pk_values. unfold RowView.data, lookup_statement. subst pk_values.
  destruct (RowView.lookup_keys db (unquote_plus table)) as [use_rowid keys].
  cbn [fst snd].
  destruct (conn _ _ _) as [e|all_rows description] eqn:Hconn.
  - rewrite execute_unfold. cbn [time_limit_ms]. by rewrite Hconn.
  - destruct (execute_truncated_nil conn ds _ _ None all_rows description Hmax Hconn)
      as (rows & truncated & Hexec & Hprefix & Hnil).
    rewrite Hexec. cbn [mbind result_bind].
    destruct all_rows as [|row all_rows].
    + by rewrite (proj2 Hnil eq_refl).
    + destruct rows as [|row' rows]; [discriminate (proj1 Hnil eq_refl)|].
      eexists. split; [done|]. done.
Qed.
End RowViewFacts.

Lemma row_lookup_statement_witness :
  ∃ d, RowView.data (H := spec_utils) key_row_conn example_ds example_db
         "fixtures" "t" "1,2" = Ok d
       ∧ rd_primary_keys d = ["a"; "b"]
       ∧ rd_primary_key_values d = ["1"; "2"].
Proof.
  eassert (RowView.data (H := spec_utils) key_row_conn example_ds example_db
             "fixtures" "t" "1,2" = Ok _) as Hd by reflexivity.
  eexists. split; [exact Hd|].
  destruct (row_lookup_statement (H := spec_utils) key_row_conn example_ds example_db
              "fixtures" "t" "1,2" _ Hd) as (Hvalues & Hkeys & _).
  split; [exact Hkeys|exact Hvalues].
Defined.

Lemma row_lookup_outcomes_witness :
  RowView.data (H := spec_utils) key_row_conn example_ds example_db
    "fixtures" "t" "7,7"
  = Raise (NotFound "Record not found: ['7', '7']").
Proof.
  apply (row_lookup_outcomes (H := spec_utils) key_row_conn example_ds example_db
           "fixtures" "t" "7,7").
  discriminate.
Defined.

(** ** The rows rendered in the table page *)

Section DisplayFacts.
Context `{!Utils}.
Variable quote_plus : string → string.
Variable ds : Datasette.
Variable databases : gmap string DatabaseInfo.
Variable db : gmap string relation.

(** [data_and_template] has the outcome of [data], with the template data
    beside it. *)
Lemma data_and_template_data args name hash table :
  match data_and_template quote_plus ds databases db args name hash table with
  | Ok (d, _) => data ds databases db args name table = Ok d
  | Raise e => data ds databases db args name table = Raise e
  end.
Proof.
  unfold data_and_template, data.
  destruct (db !! unquote_plus table) as [rel|]; [|done].
  destruct (partition_args args) as [sp ot].
  destruct (if decide (ot = ∅) then _ else _) as [built params].
  destruct (apply_next _ _ _ _ _ _) as [[[w p] offset]|]; [|done].
  cbn [mbind result_bind].
  destruct (custom_time_limit_of _) as [custom|]; [|done]. cbn [mbind result_bind].
  destruct (execute _ _ _ _ _ _) as [[?|rows truncated columns]|]; [done| |done].
  cbn [mbind result_bind].
  match goal with |- context [?r ≫= _] => destruct r as [table_rows|] end; [|done].
  cbn [mbind result_bind].
  destruct (next_value_of _ _ _ _ _ _) as [nv|]; done.
Qed.

(** The table page renders every row [execute] returned: when there is a
    next page, [display_rows] holds one row more than ['rows'], the row
    fetched only to detect the next page; otherwise it holds as many. *)
Theorem display_rows_include_probe args name hash table d t :
  0 < page_size ds →
  data_and_template quote_plus ds databases db args name hash table = Ok (d, t) →
  data ds databases db args name table = Ok d
  ∧ len (tt_display_rows t)
    = len (td_rows d) + match td_next_value d with Some _ => 1 | None => 0 end.
Proof.
  intros Hps Hdt.
  pose proof (data_and_template_data args name hash table) as Hdata.
  rewrite Hdt in Hdata. split; [done|]. clear Hdata.
  revert Hdt. unfold data_and_template.
  destruct (db !! unquote_plus table) as [rel|]; [|done].
  destruct (partition_args args) as [sp ot].
  destruct (if decide (ot = ∅) then _ else _) as [built params].
  destruct (apply_next _ _ _ _ _ _) as [[[w p] offset]|]; [|done].
  cbn [mbind result_bind].
  destruct (custom_time_limit_of _) as [custom|]; [|done]. cbn [mbind result_bind].
  destruct (execute _ _ _ _ _ _) as [[?|rows truncated columns]|] eqn:Hexec;
    [done| |done].
  cbn [mbind result_bind].
  match goal with |- context [?r ≫= _] => destruct r as [table_rows|] end; [|done].
  cbn [mbind result_bind].
  destruct (next_value_of _ _ _ _ _ _) as [nv|] eqn:Hnv; [|done].
  cbn [mbind result_bind]. intros [= <- <-]. cbn.
  apply execute_rows_length in Hexec; [|cbn; lia]. cbn in Hexec.
  unfold make_display_rows, len. rewrite length_fmap.
  rewrite slice_to_nonneg, length_take by lia.
  unfold next_value_of in Hnv. unfold len in *.
  destruct (Z.of_nat (length rows) >? page_size ds) eqn:Hgt.
  - assert (∃ c, nv = Some c) as [c ->].
    { destruct (rel_is_view rel).
      - destruct (match truthy _ with Some s => _ | None => _ end); [|done].
        injection Hnv as <-. eauto.
      - destruct (index_m2 rows); [|done]. injection Hnv as <-. eauto. }
    lia.
  - injection Hnv as <-. lia.
Qed.

(** For a table with a primary key, called as [TableView.data] calls it
    (the columns preceded by ['Link']), [make_display_rows] puts the link
    first and then one cell per value, in order; the cell of the [j]-th
    value carries the [j]-th entry of the display columns as its label,
    that is ['Link'] for the first value and the name of the column before
    it for the others. *)
Theorem display_cells_of_key_table database database_hash table rows columns pks i row :
  rows !! i = Some row →
  ∃ cells,
    make_display_rows quote_plus database database_hash table rows
      ("Link" :: columns) pks false false !! i
    = Some ({| cell_column := "Link";
               cell_value := row_link quote_plus database database_hash table row
                               pks false |} :: cells)
    ∧ cells = zip_with (λ v c, {| cell_column := c; cell_value := shown v |})
                row.*2 ("Link" :: columns)
    ∧ ∀ j v c, row.*2 !! j = Some v → ("Link" :: columns) !! j = Some c →
        cells !! j = Some {| cell_column := c; cell_value := shown v |}.
Proof.
  intros Hrow. eexists. split; [|split].
  - unfold make_display_rows. rewrite list_lookup_fmap, Hrow. cbn. reflexivity.
  - generalize ("Link" :: columns). generalize (row.*2). clear.
    induction l as [|v l IH]; intros [|c cs]; [done..|].
    cbn. rewrite <-IH. unfold value_cell at 1. cbn. by destruct v.
  - intros j v c Hv Hc.
    assert (zip row.*2 ("Link" :: columns) ≫= value_cell false
            = zip_with (λ v c, {| cell_column := c; cell_value := shown v |})
                row.*2 ("Link" :: columns)) as ->.
    { generalize ("Link" :: columns). generalize (row.*2). clear.
      induction l as [|v' l IH]; intros [|c' cs]; [done..|].
      cbn. rewrite <-IH. unfold value_cell at 1. cbn. by destruct v'. }
    apply lookup_zip_with_Some. eauto.
Qed.
End DisplayFacts.

Lemma display_rows_include_probe_witness :
  ∃ d t, data_and_template (H := spec_utils) id example_ds example_databases example_db
           ∅ "fixtures" "0123456" "t" = Ok (d, t)
         ∧ len (tt_display_rows t) = 3 ∧ len (td_rows d) = 2.
Proof.
  eassert (data_and_template (H := spec_utils) id example_ds example_databases
             example_db ∅ "fixtures" "0123456" "t" = Ok (_, _)) as Hd by reflexivity.
  eexists _, _. split; [exact Hd|].
  pose proof (proj2 (display_rows_include_probe (H := spec_utils) id example_ds
                       example_databases example_db ∅ "fixtures" "0123456" "t" _ _
                       eq_refl Hd)) as Hlen.
  split; [exact Hlen|reflexivity].
Defined.

Lemma display_cells_of_key_table_witness :
  ∃ cells,
    make_display_rows (H := spec_utils) id "fixtures" "0123456" "t"
      [[("a", VInt 1); ("b", VNull)]] ["Link"; "a"; "b"] ["a"; "b"] false false
      !! 0%nat
    = Some ({| cell_column := "Link";
               cell_value := row_link (H := spec_utils) id "fixtures" "0123456" "t"
                               [("a", VInt 1); ("b", VNull)] ["a"; "b"] false |}
            :: cells)
    ∧ cells = [ {| cell_column := "Link"; cell_value := Text "1" |};
                {| cell_column := "a"; cell_value := Markup "&nbsp;" |} ].
Proof.
  destruct (display_cells_of_key_table (H := spec_utils) id "fixtures" "0123456" "t"
              [[("a", VInt 1); ("b", VNull)]] ["a"; "b"] ["a"; "b"] 0
              [("a", VInt 1); ("b", VNull)] eq_refl) as (cells & Hcells & Heq & _).
  exists cells. split; [exact Hcells|]. rewrite Heq. reflexivity.
Defined.

(** ** The cursor of a table *)

Lemma imap_zip_fst {A B C} (f : nat → A → C) (l : list A) (k : list B) :
  length l = length k →
  imap (λ i (p : A * B), f i p.1) (zip l k) = imap f l.
Proof.
  revert f k. induction l as [|x l IH]; intros f [|y k] Hlen; try done.
  cbn. f_equal. apply (IH (f ∘ S)). by injection Hlen.
Qed.

(** The loop over the key columns keeps the clauses and adds, for the
    [i]-th pair, the clause on its column with a parameter of its own,
    bound to its value; bindings under other names stay. *)
Lemma add_pk_clauses_spec pairs n w p w' p' :
  add_pk_clauses pairs n w p = (w', p') →
  w' = w ++ imap (λ i (pv : string * string),
                    PkGt pv.1 (param_name (n + Z.of_nat i))) pairs
  ∧ (∀ k v, p !! k = Some v → (∀ j, n ≤ j → k ≠ param_name j) → p' !! k = Some v)
  ∧ ∀ (i : nat) pk v, pairs !! i = Some (pk, v) →
      p' !! param_name (n + Z.of_nat i) = Some v.
Proof.
  revert n w p. induction pairs as [|[pk0 v0] pairs IH]; intros n w p Hadd.
  - injection Hadd as <- <-. split; [by rewrite app_nil_r|].
    split; [done|]. by intros i pk v.
  - cbn [add_pk_clauses] in Hadd.
    destruct (IH _ _ _ Hadd) as (Hw & Hp & Hi). split; [|split].
    + rewrite Hw, <-app_assoc. f_equal. cbn. rewrite Z.add_0_r. f_equal.
      apply imap_ext. intros i [pk v] _. cbn. do 2 f_equal. lia.
    + intros k v Hk Hfresh. apply Hp.
      * rewrite lookup_insert_ne; [done|]. intros <-. by apply (Hfresh n).
      * intros j Hj. apply Hfresh. lia.
    + intros [|i] pk v Hpair.
      * injection Hpair as <- <-. rewrite Z.add_0_r.
        apply Hp; [by rewrite lookup_insert_eq|].
        intros j Hj Heq%param_name_inj. lia.
      * replace (n + Z.of_nat (S i)) with (n + 1 + Z.of_nat i) by lia.
        by apply (Hi i pk v).
Qed.

Section TableCursor.
Context `{!Utils}.
Variable ds : Datasette.
Variable databases : gmap string DatabaseInfo.
Variable db : gmap string relation.

(** The statement of a page: what [apply_next] made of the cursor. *)
Lemma data_statement args name table d :
  data ds databases db args name table = Ok d →
  ∃ rel built params,
    db !! unquote_plus table = Some rel
    ∧ apply_next (rel_is_view rel)
        (bool_decide (pks_for_table rel = []) && negb (rel_is_view rel))
        (pks_for_table rel) (truthy ((partition_args args).1 !! "_next"))
        (Built <$> built) params
      = Ok (q_where (td_query d), td_query_params d, q_offset (td_query d)).
Proof.
  unfold data. destruct (db !! unquote_plus table) as [rel|] eqn:Hrel; [|done].
  destruct (partition_args args) as [sp ot]. cbn [fst].
  destruct (if decide (ot = ∅) then _ else _) as [built params].
  destruct (apply_next _ _ _ _ _ _) as [[[w p] offset]|] eqn:Hnext; [|done].
  cbn [mbind result_bind].
  destruct (custom_time_limit_of _) as [custom|]; [|done]. cbn [mbind result_bind].
  destruct (execute _ _ _ _ _ _) as [[?|rows truncated columns]|] eqn:Hexec;
    [done| |done].
  cbn [mbind result_bind].
  match goal with |- (?r ≫= _) = _ → _ => destruct r as [table_rows|] end; [|done].
  cbn [mbind result_bind].
  destruct (next_value_of _ _ _ _ _ _) as [nv|]; [|done].
  intros [= <-]. exists rel, built, params. cbn. done.
Qed.

(** What a cursor [_next=c] adds to the statement of a table page.  On a
    table without primary key: one clause [rowid > :p], after the clauses
    of the filters, with [p] bound to [c].  On a table with a primary key,
    when the cursor has one component per key column: one clause
    ["pk" > :p] per key column, in the order of the key and each with a
    parameter of its own, bound to the component of the cursor at the
    position of the column; with any other number of components: no
    clause.  The statement has no offset. *)
Theorem cursor_clauses_sent args name table rel c vs d :
  db !! unquote_plus table = Some rel →
  rel_is_view rel = false →
  args !! "_next" = Some (c, vs) →
  c ≠ "" →
  data ds databases db args name table = Ok d →
  let pks := pks_for_table rel in
  let pk_values := compound_pks_from_path c in
  q_offset (td_query d) = None
  ∧ ∃ (built : list built_clause) (n : Z),
      if bool_decide (pks = []) then
        q_where (td_query d) = (Built <$> built) ++ [RowidGt (param_name n)]
        ∧ td_query_params d !! param_name n = Some c
      else if decide (length pk_values = length pks) then
        q_where (td_query d)
        = (Built <$> built)
          ++ imap (λ i pk, PkGt pk (param_name (n + Z.of_nat i))) pks
        ∧ ∀ (i : nat) v, pk_values !! i = Some v →
            td_query_params d !! param_name (n + Z.of_nat i) = Some v
      else q_where (td_query d) = Built <$> built.
Proof.
  intros Hrel Hview Hnext Hc Hd pks pk_values. subst pks pk_values.
  destruct (data_statement args name table d Hd)
    as (rel' & built & params & Hrel' & Happly).
  assert (rel' = rel) as -> by congruence.
  rewrite Hview, andb_true_r in Happly.
  rewrite (proj1 (partition_args_lookup args "_next")), Hnext in Happly.
  change (if is_special_arg "_next" then fst <$> Some (c, vs) else None)
    with (Some c) in Happly.
  assert (truthy (Some c) = Some c) as Htruthy by (by destruct c).
  rewrite Htruthy in Happly. clear Htruthy.
  unfold apply_next in Happly.
  destruct (bool_decide (pks_for_table rel = [])).
  - injection Happly as Hw Hp Ho. split; [done|].
    exists built, (Z.of_nat (size params)). split; [done|].
    by rewrite <-Hp, lookup_insert_eq.
  - destruct (decide _) as [Hlen|Hlen].
    + destruct (add_pk_clauses _ _ _ _) as [w p] eqn:Hadd.
      injection Happly as Hw Hp Ho. split; [done|].
      exists built, (Z.of_nat (size params)).
      destruct (add_pk_clauses_spec _ _ _ _ _ _ Hadd) as (Hclauses & _ & Hbound).
      split.
      * rewrite <-Hw, Hclauses. f_equal.
        by rewrite (imap_zip_fst
                      (λ i pk, PkGt pk (param_name (Z.of_nat (size params) + Z.of_nat i)))).
      * intros i v Hv. rewrite <-Hp.
        destruct (lookup_lt_is_Some_2 (pks_for_table rel) i) as [pk Hpk].
        { apply lookup_lt_Some in Hv. lia. }
        apply (Hbound i pk v). apply lookup_zip_with_Some. eauto.
    + injection Happly as Hw Hp Ho. split; [done|]. by exists built, 0.
Qed.

(** On a table with a primary key, a cursor that has not one value per key
    column is ignored: the request is answered as the same request without
    [_next], that is with the first page. *)
Theorem cursor_of_wrong_arity_ignored args name table rel c vs :
  db !! unquote_plus table = Some rel →
  rel_is_view rel = false →
  pks_for_table rel ≠ [] →
  length (compound_pks_from_path c) ≠ length (pks_for_table rel) →
  data ds databases db (<["_next" := (c, vs)]> args) name table
  = data ds databases db (delete "_next" args) name table.
Proof.
  intros Hrel Hview Hpks Hlen.
  rewrite <-(insert_delete_eq args "_next").
  assert ((partition_args (delete "_next" args)).1 !! "_next" = None) as Hnone
    by (rewrite (proj1 (partition_args_lookup _ _)), lookup_delete_eq; reflexivity).
  unfold data. rewrite Hrel, Hview.
  rewrite partition_args_insert_special by done.
  rewrite custom_time_limit_of_insert_next.
  destruct (partition_args (delete "_next" args)) as [sp ot]. cbn [fst snd] in *.
  rewrite lookup_insert_eq, Hnone.
  rewrite bool_decide_eq_false_2 by done. cbn [andb negb].
  destruct (if decide (ot = ∅) then _ else _) as [built params].
  unfold apply_next, next_value_of.
  cbn [fst]. destruct (truthy (Some c)) as [s|] eqn:Hs; [|done].
  assert (s = c) as -> by (destruct c; cbn in Hs; congruence).
  by rewrite decide_False.
Qed.
End TableCursor.

Lemma cursor_clauses_sent_witness :
  ∃ d, data (H := spec_utils) example_ds example_databases example_db
         (next_args "10") "fixtures" "s" = Ok d
       ∧ q_offset (td_query d) = None
       ∧ ∃ (built : list built_clause) (n : Z),
           q_where (td_query d) = (Built <$> built) ++ [PkGt "id" (param_name (n + Z.of_nat 0))]
           ∧ td_query_params d !! param_name (n + Z.of_nat 0) = Some "10".
Proof.
  eassert (data (H := spec_utils) example_ds example_databases example_db
             (next_args "10") "fixtures" "s" = Ok _) as Hd by reflexivity.
  eexists. split; [exact Hd|].
  destruct (cursor_clauses_sent (H := spec_utils) example_ds example_databases
              example_db (next_args "10") "fixtures" "s" single_table "10" [] _
              eq_refl eq_refl eq_refl ltac:(discriminate) Hd)
    as (Hoffset & built & n & Hwhere & Hbound).
  split; [exact Hoffset|]. exists built, n.
  split; [exact Hwhere|]. exact (Hbound 0%nat "10" eq_refl).
Defined.

Lemma cursor_of_wrong_arity_ignored_witness :
  data (H := spec_utils) example_ds example_databases example_db
    (<["_next" := ("1", [])]> ∅) "fixtures" "t"
  = data (H := spec_utils) example_ds example_databases example_db
      (delete "_next" ∅) "fixtures" "t".
Proof.
  apply (cursor_of_wrong_arity_ignored (H := spec_utils) example_ds example_databases
           example_db ∅ "fixtures" "t" compound_table "1" []);
    [reflexivity|reflexivity|discriminate|discriminate].
Defined.
